(** * Action resolution in boardzilla-core

    A shallow embedding of [src/action/selection.ts], [src/action/action.ts]
    and the dispatch part of [src/game.ts], with the properties of the
    resolution engine stated and proved over it; and, beside them, of the
    turn order of [game/player/collection.ts] and of the interrupt queue of
    [src/flow/enums.ts].

    Conventions of the embedding:
    - a JavaScript number is an integer of [Z], a finite number that is not
      an integer, [NaN] or an infinity; the bounds and counts that a game
      declares ([min], [max], [number], the lengths) are integers;
    - a board element and a player are their identities (a [nat] each), so
      that the reference equality of [Array.prototype.includes] is equality;
    - an argument record ([Record<string, Argument>]) is a plain object, given
      by the [gmap string Argument] of its own keys; [k in args] holds of its
      own keys and of the properties it inherits from [Object.prototype],
      and [args[k]] for an inherited [k] reads a function, which [validate]
      treats as it treats [undefined];
    - a field that is "a constant or a function of the earlier arguments" is a
      [Field]; the functions are read against the board as it stands when the
      call starts, and nothing in resolution writes the board;
    - the string form of a board query, which [resolve] rejects with
      ["not impl"], is not part of the model;
    - what a call of the library throws is an [Error], of which the message
      is kept; what a behaviour throws is any value, an [Exception]; the
      [TypeError] of the engine, which has its own message, is
      [Thrown "TypeError"];
    - [clientContext], the [condition] and the [messages] of an action, which
      the functions embedded here do not read, are left out. *)

From stdpp Require Import gmap strings list pretty.
From Stdlib Require Import ZArith.

Local Open Scope Z_scope.

(** ** Arguments *)

Definition Element := nat.

(** A number is an integer ([VNum]), a finite number that is not an integer,
    given by its integer part and its fractional part, the proper fractions
    being numbered ([VFraction]), [NaN] or an infinity. *)
Inductive SingleArgument :=
| VStr (s : string)
| VNum (n : Z)
| VBool (b : bool)
| VElement (e : Element)
| VPlayer (position : nat)
| VFraction (floor : Z) (part : positive)
| VNaN
| VInfinity (negative : bool).

(** [typeof v === 'number'] *)
Definition is_number (v : SingleArgument) : bool :=
  match v with
  | VNum _ | VFraction _ _ | VNaN | VInfinity _ => true
  | _ => false
  end.

(** [v < m] and [v > m] for a number [v] and an integer [m]. *)
Definition below (v : SingleArgument) (m : Z) : bool :=
  match v with
  | VNum n => n <? m
  | VFraction floor _ => floor <? m
  | VInfinity negative => negative
  | _ => false
  end.

Definition above (v : SingleArgument) (m : Z) : bool :=
  match v with
  | VNum n => m <? n
  | VFraction floor _ => m <=? floor
  | VInfinity negative => negb negative
  | _ => false
  end.

Inductive Argument :=
| Single (v : SingleArgument)
| Multiple (vs : list SingleArgument).

#[global] Instance SingleArgument_eq_dec : EqDecision SingleArgument.
Proof. solve_decision. Defined.

#[global] Instance Argument_eq_dec : EqDecision Argument.
Proof. solve_decision. Defined.

Abbreviation Args := (gmap string Argument).

(** A call either returns or throws an [Error] carrying a message. *)
Inductive Outcome (A : Type) :=
| Returned (a : A)
| Thrown (message : string).
Arguments Returned {A} a.
Arguments Thrown {A} message.

(** What a behaviour throws, by what reading its [message] gives: the
    string of an [Error], or of any object that has such a message;
    [undefined] for a value without one (a string, a number, a plain object);
    a [TypeError] for [null] and [undefined]. *)
Inductive Exception :=
| Error (message : string)
| Messageless
| Nullish.

(** The names that every plain object inherits from [Object.prototype]. *)
Definition Object_prototype : list string :=
  ["constructor"; "__defineGetter__"; "__defineSetter__"; "hasOwnProperty";
   "__lookupGetter__"; "__lookupSetter__"; "isPrototypeOf";
   "propertyIsEnumerable"; "toString"; "valueOf"; "__proto__"; "toLocaleString"].

(** [k in args] *)
Definition has (args : Args) (k : string) : Prop :=
  is_Some (args !! k) ∨ k ∈ Object_prototype.

#[global] Instance has_dec args k : Decision (has args k).
Proof. unfold has. apply _. Defined.

(** [xs.includes(x)] *)
Definition includes {A} `{EqDecision A} (xs : list A) (x : A) : bool :=
  bool_decide (x ∈ xs).

Module Utils.

(** Modelled from the spec: [range] of [src/utils.ts] is not among the
    sources; the spec has a number selection enumerate "the inclusive
    integer range [min, max]". *)
Definition range (lo hi : Z) : list Z :=
  (λ k : nat, lo + Z.of_nat k) <$> seq 0 (Z.to_nat (hi - lo + 1)).

Fixpoint sublists {A} (l : list A) : list (list A) :=
  match l with
  | [] => [[]]
  | x :: l' => ((x ::.) <$> sublists l') ++ sublists l'
  end.

(** Modelled from the spec: [combinations] of [src/action/utils.ts] is not
    among the sources; the spec has a multi-select enumerate "all
    combinations of the candidate elements of every size between min and
    max", an absent [max] ([Infinity]) putting no upper limit. *)
Definition combinations {A} (set : list A) (lo : Z) (hi : option Z) : list (list A) :=
  List.filter (λ c, (lo <=? Z.of_nat (length c)) &&
                    match hi with Some h => Z.of_nat (length c) <=? h | None => true end)
              (sublists set).

End Utils.

(** ** Selection *)

Inductive SelectionType := board | choices | text | number | button.

#[global] Instance SelectionType_eq_dec : EqDecision SelectionType.
Proof. solve_decision. Defined.

(** [choices] is an array, or a record of which the keys are the values. *)
Inductive Choices :=
| ChoiceList (l : list SingleArgument)
| ChoiceRecord (r : list (string * SingleArgument)).

(** [choices instanceof Array ? choices : Object.keys(choices)] *)
Definition choice_values (c : Choices) : list SingleArgument :=
  match c with
  | ChoiceList l => l
  | ChoiceRecord r => (λ kv, VStr kv.1) <$> r
  end.

Inductive Field (T : Type) :=
| Const (v : T)
| Computed (f : Args → T).
Arguments Const {T} v.
Arguments Computed {T} f.

Definition Field_map {T U} (g : T → U) (f : Field T) : Field U :=
  match f with
  | Const v => Const (g v)
  | Computed h => Computed (λ a, g (h a))
  end.

(** [typeof f === 'function'] *)
Definition is_function {T} (f : option (Field T)) : bool :=
  match f with
  | Some (Computed _) => true
  | _ => false
  end.

(** The value of a field once its function, if it is one, has been called. *)
Definition eval {T} (args : Args) (f : option (Field T)) : option T :=
  match f with
  | None => None
  | Some (Const v) => Some v
  | Some (Computed g) => Some (g args)
  end.

(** The class [Selection]. [name] is the key under which [action.ts] files
    the selection's argument; the constructor of [selection.ts] sets none. *)
Record Selection := {
  name : option string;
  type : SelectionType;
  prompt : option (Field string);
  skipIfOnlyOne : bool;
  skipIf : option (Field bool);
  expand : bool;
  choicesOf : option (Field Choices);
  boardChoices : option (Field (list Element));
  min : option (Field Z);
  max : option (Field Z);
  initial : option (Field Argument);
  regexp : option (string → bool);
  value : option Argument
}.

(** [ResolvedSelection]: a selection none of whose fields is a function. *)
Record ResolvedSelection := {
  r_name : option string;
  r_type : SelectionType;
  r_prompt : option string;
  r_skipIfOnlyOne : bool;
  r_skipIf : option bool;
  r_expand : bool;
  r_choices : option Choices;
  r_boardChoices : option (list Element);
  r_min : option Z;
  r_max : option Z;
  r_initial : option Argument;
  r_regexp : option (string → bool);
  r_value : option Argument
}.

(** The key a selection is filed under: a property name that is [undefined]
    reads as the string ["undefined"]. *)
Definition key (n : option string) : string := default "undefined" n.

(** The definitions the constructor accepts. *)
Inductive Payload :=
| selectOnBoard (chooseFrom : Field (list Element)) (bmin bmax bnumber : option (Field Z))
| selectFromChoices (cs : Field Choices) (cinitial : option (Field Argument))
| selectNumber (nmin nmax ninitial : option (Field Z))
| enterText (re : option (string → bool)) (tinitial : option (Field string))
| buttonValue (v : Argument).

Record SelectionDefinition := {
  d_prompt : option (Field string);
  d_skipIfOnlyOne : option bool;
  d_skipIf : option (Field bool);
  d_expand : option bool;
  d_payload : Payload
}.

Module Selection.

(** [new Selection(name, s)] for a definition [s]. *)
Definition new (n : option string) (s : SelectionDefinition) : Selection :=
  let make ty cs bc lo hi ini re v := {|
    name := n; type := ty; prompt := d_prompt s;
    skipIfOnlyOne := default true (d_skipIfOnlyOne s);
    skipIf := d_skipIf s;
    expand := default false (d_expand s);
    choicesOf := cs; boardChoices := bc; min := lo; max := hi;
    initial := ini; regexp := re; value := v |} in
  match d_payload s with
  | selectFromChoices cs cinitial =>
      make choices (Some cs) None None None cinitial None None
  | selectOnBoard chooseFrom bmin bmax bnumber =>
      make board None (Some chooseFrom)
           (match bnumber with Some k => Some k | None => bmin end)
           (match bnumber with Some k => Some k | None => bmax end)
           None None None
  | selectNumber nmin nmax ninitial =>
      make number None None nmin nmax
           (Field_map (λ k, Single (VNum k)) <$>
              match nmin with None => ninitial | Some m => Some m end)
           None None
  | enterText re tinitial =>
      make text None None None None
           (Field_map (λ t, Single (VStr t)) <$> tinitial) re None
  | buttonValue v =>
      make button None None None None None None (Some v)
  end.

Definition isResolved (s : Selection) : bool :=
  negb (is_function (prompt s)) &&
  negb (is_function (min s)) &&
  negb (is_function (max s)) &&
  negb (is_function (initial s)) &&
  negb (is_function (skipIf s)) &&
  negb (is_function (choicesOf s)) &&
  negb (is_function (boardChoices s)).

(** [isMulti] on a selection as defined: a function counts as set. *)
Definition isMulti (s : Selection) : bool :=
  bool_decide (is_Some (min s)) || bool_decide (is_Some (max s)).

(** [resolve(args)]: the selection with every function field called on
    [args]. When [isResolved] holds the source returns the selection
    itself, otherwise a copy; which of the two it is matters to whoever
    writes to the result, and is followed in [Action] below. *)
Definition resolve (s : Selection) (args : Args) : ResolvedSelection := {|
  r_name := name s;
  r_type := type s;
  r_prompt := eval args (prompt s);
  r_skipIfOnlyOne := skipIfOnlyOne s;
  r_skipIf := eval args (skipIf s);
  r_expand := expand s;
  r_choices := eval args (choicesOf s);
  r_boardChoices := eval args (boardChoices s);
  r_min := eval args (min s);
  r_max := eval args (max s);
  r_initial := eval args (initial s);
  r_regexp := regexp s;
  r_value := value s
|}.

(** [isMulti] on a resolved selection. *)
Definition isMultiR (r : ResolvedSelection) : bool :=
  bool_decide (is_Some (r_min r)) || bool_decide (is_Some (r_max r)).

Definition is_array (arg : option Argument) : bool :=
  match arg with
  | Some (Multiple _) => true
  | _ => false
  end.

(** [xs.includes(arg)] for an argument that may be an array or absent:
    only a single value can be found among single values. *)
Definition includes_arg (xs : list SingleArgument) (arg : option Argument) : bool :=
  match arg with
  | Some (Single v) => includes xs v
  | _ => false
  end.

(** The text and number checks that close [validate]. *)
Definition validate_scalar (s : ResolvedSelection) (arg : option Argument)
  : Outcome (option string) :=
  if decide (r_type s = text) then
    match arg with
    | Some (Single (VStr t)) =>
        if match r_regexp s with None => true | Some re => re t end
        then Returned None
        else Returned (Some "Invalid text entered")
    | _ => Returned (Some "Invalid text entered")
    end
  else if decide (r_type s = number) then
    match arg with
    | Some (Single v) =>
        if negb (is_number v) then Returned (Some "Not a number")
        else if match r_min s with Some m => below v m | None => false end
        then Returned (Some "Below minimum")
        else if match r_max s with Some m => above v m | None => false end
        then Returned (Some "Above maximum")
        else Returned None
    | _ => Returned (Some "Not a number")
    end
  else Returned None.

(** [validate(arg, previousArgs)]. [action.ts] hands over the argument
    record; the value under test is the record's entry for the selection,
    [None] when there is none. *)
Definition validate (this : Selection) (arg : option Argument) (previousArgs : Args)
  : Outcome (option string) :=
  let s := resolve this previousArgs in
  if decide (r_skipIf s = Some true) then Returned None
  else
    match r_type s, r_choices s, r_boardChoices s with
    | choices, Some cs, _ =>
        if is_array arg then Returned (Some "multi-choice stil unsupported")
        else if includes_arg (choice_values cs) arg then Returned None
        else Returned (Some "Not a valid choice")
    | board, _, Some results =>
        if isMulti this then
          match arg with
          | Some (Multiple vs) =>
              if existsb (λ a, negb (includes (VElement <$> results) a)) vs
              then Returned (Some "Selected elements are not valid")
              else if match r_min s with
                      | Some m => Z.of_nat (length vs) <? m
                      | None => false
                      end
              then Returned (Some "Below minimum")
              else if match r_max s with
                      | Some m => m <? Z.of_nat (length vs)
                      | None => false
                      end
              then Returned (Some "Above maximum")
              else validate_scalar s arg
          | _ => Thrown "Required multi select"
          end
        else if includes_arg (VElement <$> results) arg then Returned None
        else Returned (Some "Selected element is not valid")
    | _, _, _ => validate_scalar s arg
    end.

Definition isUnbounded (this : ResolvedSelection) : bool :=
  if decide (r_type this = number) then
    match r_max this with
    | None => true
    | Some hi => 100 <? hi - default 1 (r_min this)
    end
  else bool_decide (r_type this = text) || bool_decide (r_type this = button).

(** [options()]. A number range is given on a selection that is not
    unbounded, so that its [max] is set. *)
Definition options (this : ResolvedSelection) : list Argument :=
  if isUnbounded this then []
  else if decide (r_type this = number) then
    match r_max this with
    | Some hi => (λ k, Single (VNum k)) <$> Utils.range (default 1 (r_min this)) hi
    | None => []
    end
  else
    let cs := choice_values <$> r_choices this in
    let bs := fmap (M := list) VElement <$> r_boardChoices this in
    if isMultiR this then
      Multiple <$> Utils.combinations
                     (match bs, cs with
                      | Some l, _ => l
                      | None, Some l => l
                      | None, None => []
                      end)
                     (default 1 (r_min this)) (r_max this)
    else
      match bs, cs with
      | Some l, _ => Single <$> l
      | None, Some l => Single <$> l
      | None, None => []
      end.

Definition isPossible (this : ResolvedSelection) : bool :=
  match r_type this, r_choices this with
  | choices, Some cs => bool_decide (0 < length (choice_values cs))%nat
  | _, _ =>
      let isInBounds :=
        match r_max this with
        | Some hi => default 1 (r_min this) <=? hi
        | None => true
        end in
      match r_type this, r_boardChoices this with
      | board, Some bs => isInBounds && (default 1 (r_min this) <=? Z.of_nat (length bs))
      | number, _ => isInBounds
      | _, _ => true
      end
  end.

(** The elements among a list of options. *)
Definition as_elements (opts : list Argument) : list Element :=
  omap (λ o, match o with Single (VElement e) => Some e | _ => None end) opts.

Definition as_singles (opts : list Argument) : list SingleArgument :=
  omap (λ o, match o with Single v => Some v | _ => None end) opts.

(** [overrideOptions(options)] on a resolved selection: the selection as
    the call leaves it, and the selection the call returns. On the board
    the candidates are overwritten in place and the selection itself is
    returned; otherwise a new selection is built from the options and the
    receiver is left as it was. *)
Definition overrideOptions (this : ResolvedSelection) (opts : list Argument)
  : ResolvedSelection * ResolvedSelection :=
  if decide (r_type this = board) then
    let this' := {|
      r_name := r_name this; r_type := r_type this; r_prompt := r_prompt this;
      r_skipIfOnlyOne := r_skipIfOnlyOne this; r_skipIf := r_skipIf this;
      r_expand := r_expand this; r_choices := r_choices this;
      r_boardChoices := Some (as_elements opts);
      r_min := r_min this; r_max := r_max this; r_initial := r_initial this;
      r_regexp := r_regexp this; r_value := r_value this |} in
    (this', this')
  else
    (this,
     resolve (new None {| d_prompt := None; d_skipIfOnlyOne := None; d_skipIf := None;
                          d_expand := None;
                          d_payload := selectFromChoices (Const (ChoiceList (as_singles opts))) None |})
             ∅).

(** [isForced()]: the value there is no choosing about, when
    [skipIfOnlyOne] is set. [boardChoices[0]] is the head of the list. *)
Definition isForced (this : ResolvedSelection) : option Argument :=
  let boardChoices := r_boardChoices this in
  if negb (r_skipIfOnlyOne this) then None
  else if bool_decide (r_type this = button) then r_value this
  else if bool_decide (length <$> boardChoices = Some 1%nat) && negb (isMultiR this)
  then (Single ∘ VElement) <$> (boardChoices ≫= head)
  else if bool_decide (is_Some boardChoices) &&
          bool_decide ((Z.of_nat ∘ length) <$> boardChoices = r_min this) &&
          bool_decide (r_min this = r_max this)
  then (λ bs, Multiple (VElement <$> bs)) <$> boardChoices
  else if bool_decide (r_type this = number) && bool_decide (is_Some (r_min this)) &&
          bool_decide (r_min this = r_max this)
  then (Single ∘ VNum) <$> r_min this
  else
    match r_type this, r_choices this with
    | choices, Some cs =>
        let choices := choice_values cs in
        if bool_decide (length choices = 1%nat) then Single <$> head choices else None
    | _, _ => None
    end.

End Selection.

(** ** Action *)

(** A resolved selection is an object: either one of the action's own
    selections, returned as it is by [resolve] because none of its fields is
    a function ([Shared], by its position in [_cfg.selections]), or a copy
    made by [resolve] that nothing else refers to ([Own]). Writes to a shared
    one land in the action's list and are seen by every holder. *)
Inductive SelRef :=
| Shared (i : nat)
| Own (r : ResolvedSelection).

(** [{ action, args, selection }] *)
Record PendingMove := {
  pm_action : option string;
  pm_args : Args;
  pm_selection : SelRef
}.

(** What a resolution comes to: no completion ([undefined]), or the list of
    pending moves. [Exhausted] is the embedding's own: the recursion ran out
    of the steps it was given (see [getResolved_fuel_enough]). *)
Inductive Resolution :=
| Exhausted
| Infeasible
| Moves (l : list PendingMove).

(** A behaviour registered with [do]: run on the arguments and the board, it
    leaves a board and either returns ([None]) or throws. *)
Definition Behavior (St : Type) := Args → St → St * option Exception.

Record Action (St : Type) := {
  a_name : option string;
  a_prompt : string;
  selections : list Selection;
  moves : list (Behavior St)
}.
Arguments a_name {St} _.
Arguments a_prompt {St} _.
Arguments selections {St} _.
Arguments moves {St} _.

Module Action.

(** [this.prompt = p] on one of the action's selections *)
Definition write_prompt (p : string) (s : Selection) : Selection := {|
  name := name s; type := type s; prompt := Some (Const p);
  skipIfOnlyOne := skipIfOnlyOne s; skipIf := skipIf s; expand := expand s;
  choicesOf := choicesOf s; boardChoices := boardChoices s;
  min := min s; max := max s; initial := initial s;
  regexp := regexp s; value := value s |}.

(** [this.prompt = p] on a copy *)
Definition r_write_prompt (p : string) (r : ResolvedSelection) : ResolvedSelection := {|
  r_name := r_name r; r_type := r_type r; r_prompt := Some p;
  r_skipIfOnlyOne := r_skipIfOnlyOne r; r_skipIf := r_skipIf r;
  r_expand := r_expand r; r_choices := r_choices r;
  r_boardChoices := r_boardChoices r; r_min := r_min r; r_max := r_max r;
  r_initial := r_initial r; r_regexp := r_regexp r; r_value := r_value r |}.

(** [overrideOptions] as it leaves one of the action's own selections. *)
Definition override_shared (opts : list Argument) (s : Selection) : Selection :=
  if decide (type s = board) then {|
    name := name s; type := type s; prompt := prompt s;
    skipIfOnlyOne := skipIfOnlyOne s; skipIf := skipIf s; expand := expand s;
    choicesOf := choicesOf s;
    boardChoices := Some (Const (Selection.as_elements opts));
    min := min s; max := max s; initial := initial s;
    regexp := regexp s; value := value s |}
  else s.

(** The selection an observer finds behind a reference. *)
Definition deref (sels : list Selection) (ref : SelRef) : option ResolvedSelection :=
  match ref with
  | Own r => Some r
  | Shared i => (λ s, Selection.resolve s ∅) <$> sels !! i
  end.

(** The scan of [_nextSelection]: the position, the definition and the
    resolved form of the first selection that is not skipped and has no
    argument yet, with the prompt in force there. *)
Fixpoint scan (i : nat) (rest : list Selection) (prompt : string) (args : Args)
  : option (nat * Selection * ResolvedSelection * string) :=
  match rest with
  | [] => None
  | s :: rest' =>
      let selection := Selection.resolve s args in
      if decide (r_skipIf selection = Some true) then scan (S i) rest' prompt args
      else
        let prompt := default prompt (r_prompt selection) in
        if decide (has args (key (name s))) then scan (S i) rest' prompt args
        else Some (i, s, selection, prompt)
  end.

(** [_nextSelection(args)]: the next selection, as a reference and as it
    reads once the prompt is written to it, and the action's selections
    after that write. *)
Definition _nextSelection (prompt : string) (sels : list Selection) (args : Args)
  : option (SelRef * ResolvedSelection) * list Selection :=
  match scan 0 sels prompt args with
  | None => (None, sels)
  | Some (i, s, selection, p) =>
      if decide (p = "") then
        (Some (if Selection.isResolved s then Shared i else Own selection, selection), sels)
      else
        let selection := r_write_prompt p selection in
        if Selection.isResolved s
        then (Some (Shared i, selection), alter (write_prompt p) i sels)
        else (Some (Own selection, selection), sels)
  end.

(** The variables of the loop over the options, with the action's
    selections as the recursive calls leave them. *)
Record Loop := {
  possibleOptions : list Argument;
  pruned : bool;
  resolvedSelections : list PendingMove;
  mayExpand : bool;
  store : list Selection;
  exhausted : bool
}.

Section Frame.

(** The recursive call. *)
Variable rec : list Selection → Args → Resolution * list Selection.

Definition step (selection : ResolvedSelection) (args : Args) (l : Loop) (option : Argument)
  : Loop :=
  if exhausted l then l
  else
    match rec (store l) (<[key (r_name selection) := option]> args) with
    | (Exhausted, sels) =>
        {| possibleOptions := possibleOptions l; pruned := pruned l;
           resolvedSelections := resolvedSelections l; mayExpand := mayExpand l;
           store := sels; exhausted := true |}
    | (Infeasible, sels) =>
        {| possibleOptions := possibleOptions l; pruned := true;
           resolvedSelections := resolvedSelections l; mayExpand := mayExpand l;
           store := sels; exhausted := false |}
    | (Moves submoves, sels) =>
        {| possibleOptions := possibleOptions l ++ [option]; pruned := pruned l;
           resolvedSelections := resolvedSelections l ++ submoves;
           mayExpand := if r_expand selection && bool_decide (submoves = [])
                        then false else mayExpand l;
           store := sels; exhausted := false |}
    end.

Definition simulate (selection : ResolvedSelection) (args : Args) (sels : list Selection)
  : Loop :=
  fold_left (step selection args) (Selection.options selection)
    {| possibleOptions := []; pruned := false; resolvedSelections := [];
       mayExpand := r_expand selection; store := sels; exhausted := false |}.

(** One activation of [_getResolvedSelections]. The fields read after the
    loop ([type], [min], [max], [skipIfOnlyOne]) are written by no call,
    so they are read off the selection as it was obtained. *)
Definition frame (action : option string) (prompt : string)
           (sels : list Selection) (args : Args) : Resolution * list Selection :=
  match _nextSelection prompt sels args with
  | (None, sels) => (Moves [], sels)
  | (Some (ref, selection), sels) =>
      if negb (Selection.isPossible selection) then (Infeasible, sels)
      else if Selection.isUnbounded selection
      then (Moves [{| pm_action := action; pm_args := args; pm_selection := ref |}], sels)
      else
        let l := simulate selection args sels in
        if exhausted l then (Exhausted, store l)
        else if bool_decide (possibleOptions l = []) then (Infeasible, store l)
        else
          let overridden := pruned l && negb (Selection.isMultiR selection) in
          let sels :=
            match ref with
            | Shared i =>
                if overridden
                then alter (override_shared (possibleOptions l)) i (store l)
                else store l
            | Own _ => store l
            end in
          let ref :=
            match ref with
            | Shared i => Shared i
            | Own r =>
                if overridden
                then Own (Selection.overrideOptions r (possibleOptions l)).1
                else Own r
            end in
          let move := {| pm_action := action; pm_args := args; pm_selection := ref |} in
          if bool_decide (resolvedSelections l = []) || bool_decide (r_type selection = board)
          then (Moves [move], sels)
          else if mayExpand l then (Moves (resolvedSelections l), sels)
          else if r_skipIfOnlyOne selection && bool_decide (length (possibleOptions l) = 1%nat)
          then (Moves (resolvedSelections l), sels)
          else (Moves [move], sels)
  end.

End Frame.

(** [_getResolvedSelections] with a bound on the depth of the recursion. *)
Fixpoint getResolved (fuel : nat) (action : option string) (prompt : string)
         (sels : list Selection) (args : Args) : Resolution * list Selection :=
  match fuel with
  | O => (Exhausted, sels)
  | S fuel => frame (getResolved fuel action prompt) action prompt sels args
  end.

Section Process.

Context {St : Type}.

(** [_getResolvedSelections(args)]: the pending moves, [None] for
    [undefined], and the action's selections as the call leaves them.
    Each nested call files one more selection, so one step per selection
    and one more are enough. *)
Definition _getResolvedSelections (a : Action St) (args : Args)
  : option (list PendingMove) * list Selection :=
  match getResolved (S (length (selections a))) (a_name a) (a_prompt a) (selections a) args with
  | (Moves l, sels) => (Some l, sels)
  | (_, sels) => (None, sels)
  end.

(** The validation loop of [_process]: it stops at the first error. *)
Fixpoint validate_all (sels : list Selection) (args : Args) : Outcome (option string) :=
  match sels with
  | [] => Returned None
  | selection :: rest =>
      match Selection.validate selection (args !! key (name selection)) args with
      | Thrown m => Thrown m
      | Returned (Some error) =>
          if decide (error = "") then validate_all rest args else Returned (Some error)
      | Returned None => validate_all rest args
      end
  end.

(** [for (const move of this._cfg.moves) move(args)] under [try]. *)
Fixpoint run_moves (ms : list (Behavior St)) (args : Args) (st : St)
  : option Exception * St :=
  match ms with
  | [] => (None, st)
  | move :: rest =>
      match move args st with
      | (st, None) => run_moves rest args st
      | (st, Some e) => (Some e, st)
      end
  end.

(** [catch(e) { ...; return e.message; }], after a run that caught [e] or
    caught nothing. *)
Definition caught (e : option Exception) : Outcome (option string) :=
  match e with
  | None => Returned None
  | Some (Error message) => Returned (Some message)
  | Some Messageless => Returned None
  | Some Nullish => Thrown "TypeError"
  end.

(** [error || fallback] *)
Definition or_else (error : option string) (fallback : string) : string :=
  match error with
  | Some e => if decide (e = "") then fallback else e
  | None => fallback
  end.

(** [_process(args)]: what the call returns or throws, and the board
    after it. *)
Definition _process (a : Action St) (args : Args) (st : St)
  : Outcome (option string) * St :=
  match validate_all (selections a) args with
  | Thrown m => (Thrown m, st)
  | Returned error =>
      match (_getResolvedSelections a args).1 with
      | None => (Returned (Some (or_else error "unknown error during action._process")), st)
      | Some (_ :: _) => (Returned (Some (or_else error "incomplete action")), st)
      | Some [] =>
          let (e, st) := run_moves (moves a) args st in
          (caught e, st)
      end
  end.

(** The builders. *)
Definition action (prompt : string) : Action St :=
  {| a_name := None; a_prompt := prompt; selections := []; moves := [] |}.

Definition add_selection (s : Selection) (a : Action St) : Action St :=
  {| a_name := a_name a; a_prompt := a_prompt a;
     selections := selections a ++ [s]; moves := moves a |}.

Definition do (move : Behavior St) (a : Action St) : Action St :=
  {| a_name := a_name a; a_prompt := a_prompt a;
     selections := selections a; moves := moves a ++ [move] |}.

Definition chooseFrom (n : string) (cs : Field Choices)
           (prompt : option (Field string)) (skipIfOnlyOne : option bool)
           (skipIf : option (Field bool)) (expand : option bool) : Action St → Action St :=
  add_selection (Selection.new (Some n)
    {| d_prompt := prompt; d_skipIfOnlyOne := skipIfOnlyOne; d_skipIf := skipIf;
       d_expand := expand; d_payload := selectFromChoices cs None |}).

Definition chooseNumber (n : string) (min max : option (Field Z))
           (prompt : option (Field string)) (initial : option (Field Z))
           (skipIfOnlyOne : option bool) (skipIf : option (Field bool))
           (expand : option bool) : Action St → Action St :=
  add_selection (Selection.new (Some n)
    {| d_prompt := prompt; d_skipIfOnlyOne := skipIfOnlyOne; d_skipIf := skipIf;
       d_expand := expand; d_payload := selectNumber min max initial |}).

Definition chooseOnBoard (n : string) (cs : Field (list Element))
           (prompt : option (Field string)) (min max number : option (Field Z))
           (skipIfOnlyOne : option bool) (skipIf : option (Field bool))
           (expand : option bool) : Action St → Action St :=
  add_selection (Selection.new (Some n)
    {| d_prompt := prompt; d_skipIfOnlyOne := skipIfOnlyOne; d_skipIf := skipIf;
       d_expand := expand; d_payload := selectOnBoard cs min max number |}).

Definition enterText (n : string) (prompt : option (Field string))
           (re : option (string → bool)) (initial : option (Field string))
  : Action St → Action St :=
  add_selection (Selection.new (Some n)
    {| d_prompt := prompt; d_skipIfOnlyOne := None; d_skipIf := None;
       d_expand := None; d_payload := enterText re initial |}).

Definition confirm (prompt : Field string) : Action St → Action St :=
  add_selection (Selection.new (Some "__confirm__")
    {| d_prompt := Some prompt; d_skipIfOnlyOne := Some false; d_skipIf := None;
       d_expand := None; d_payload := buttonValue (Single (VBool true)) |}).

End Process.

End Action.

(** ** Game: the player context and the dispatch over actions *)

Module Game.

Section PlayerContext.

(** [P] is the type of the players, [B] the rest of the game. *)
Context {P B : Type}.

(** The game as far as the context goes: [board._ctx.player], which may
    be [undefined], and everything else. *)
Record state := {
  ctx_player : option P;
  rest : B
}.

Definition contextualizeBoardToPlayer (player : option P) (g : state) : option P * state :=
  let prev := ctx_player g in
  (prev, {| ctx_player := player; rest := rest g |}).

(** [inContextOfPlayer(player, fn)]: [fn] runs on the game and either
    returns a result or throws, leaving the game as it made it. *)
Definition inContextOfPlayer {T} (player : P) (fn : state → Outcome T * state) (g : state)
  : Outcome T * state :=
  let (prev, g) := contextualizeBoardToPlayer (Some player) g in
  match fn g with
  | (Returned results, g) =>
      let (_, g) := contextualizeBoardToPlayer prev g in
      (Returned results, g)
  | (Thrown e, g) => (Thrown e, g)
  end.

End PlayerContext.

Arguments state : clear implicits.

(** What [allowedActions(player)] answers; the answer comes from the flow. *)
Record AllowedActions := {
  step : option string;
  aa_prompt : option string;
  aa_skipIfOnlyOne : bool;
  aa_expand : bool;
  actions : list string
}.

(** An entry of [moves]: a pending move handed up by an action, together
    with that action's selections as its resolution left them, or a move
    made up by the dispatch, [{ action, prompt, args, selections }]. *)
Inductive Move :=
| Submove (sels : list Selection) (m : PendingMove)
| Offered (action : string) (prompt : option string) (args : Args)
          (offered : list ResolvedSelection).

Record Resolved := {
  r_step : option string;
  r_prompt_of : option string;
  r_moves : list Move
}.

Section Dispatch.

Context {St : Type}.

(** The actions as declared with [defineActions], for the player at hand. *)
Variable declared : string → Action St.

(** [this.action(name, player)]: a new instance at each call, its name
    assigned. *)
Definition action (n : string) : Action St :=
  let playerAction := declared n in
  {| a_name := Some n; a_prompt := a_prompt playerAction;
     selections := selections playerAction; moves := moves playerAction |}.

(** [new Selection('__action__', { prompt, value: action }).resolve({})] *)
Definition action_button (prompt : string) (n : string) : ResolvedSelection :=
  Selection.resolve
    (Selection.new (Some "__action__")
       {| d_prompt := Some (Const prompt); d_skipIfOnlyOne := None; d_skipIf := None;
          d_expand := None; d_payload := buttonValue (Single (VStr n)) |}) ∅.

(** [new Selection('__action__', { prompt, selectFromChoices: { choices } }).resolve({})] *)
Definition action_choice (prompt : option string) (ns : list string) : ResolvedSelection :=
  Selection.resolve
    (Selection.new (Some "__action__")
       {| d_prompt := Const <$> prompt; d_skipIfOnlyOne := None; d_skipIf := None;
          d_expand := None;
          d_payload := selectFromChoices (Const (ChoiceList (VStr <$> ns))) None |}) ∅.

(** The loop over the allowed actions: [possibleActions] and
    [resolvedSelections] after it. *)
Fixpoint survey (prompt : option string) (expand : bool) (ns : list string)
         (possibleActions : list string) (resolvedSelections : list Move)
  : list string * list Move :=
  match ns with
  | [] => (possibleActions, resolvedSelections)
  | n :: ns =>
      let playerAction := action n in
      match Action._getResolvedSelections playerAction ∅ with
      | (None, _) => survey prompt expand ns possibleActions resolvedSelections
      | (Some submoves, sels) =>
          let submoves :=
            if expand && bool_decide (submoves = [])
            then [Offered n prompt ∅ [action_button (a_prompt playerAction) n]]
            else Submove sels <$> submoves in
          survey prompt expand ns (possibleActions ++ [n]) (resolvedSelections ++ submoves)
      end
  end.

(** [getResolvedSelections(player, action?, args?)], given what
    [allowedActions(player)] answers. *)
Definition getResolvedSelections (allowed : AllowedActions)
           (chosen : option string) (args : option Args) : option Resolved :=
  if bool_decide (actions allowed = []) then None
  else
    let answer ms := Some {| r_step := step allowed; r_prompt_of := aa_prompt allowed;
                             r_moves := ms |} in
    if decide (default "" chosen = "") then
      let (possibleActions, resolvedSelections) :=
        survey (aa_prompt allowed) (aa_expand allowed) (actions allowed) [] [] in
      if bool_decide (possibleActions = []) then None
      else if aa_skipIfOnlyOne allowed && bool_decide (length possibleActions = 1%nat)
      then answer resolvedSelections
      else if aa_expand allowed && negb (bool_decide (resolvedSelections = []))
      then answer resolvedSelections
      else answer [Offered "/" (aa_prompt allowed) ∅
                     [action_choice (aa_prompt allowed) (actions allowed)]]
    else
      match Action._getResolvedSelections (action (default "" chosen)) (default ∅ args) with
      | (Some ms, sels) => answer (Submove sels <$> ms)
      | (None, _) => None
      end.

End Dispatch.

(** [phase] *)
Inductive Phase := new | started | finished.

#[global] Instance Phase_eq_dec : EqDecision Phase.
Proof. solve_decision. Defined.

(** What [flow.actionNeeded(player)] answers when an action step awaits the
    player. *)
Record ActionStep := {
  as_step : option string;
  as_prompt : option string;
  as_skipIfOnlyOne : bool;
  as_expand : bool;
  as_actions : option (list string)
}.

(** [Object.keys(this.godModeActions())] *)
Definition godModeActions_keys (phase : Phase) : Outcome (list string) :=
  if decide (phase = started) then Returned ["_godMove"; "_godEdit"]
  else Thrown "cannot call god mode actions until started".

(** [allowedActions(player)]. [isCurrent] is [player.isCurrent()],
    [actionNeeded] what [this.flow.actionNeeded(player)] answers and
    [isPossible a] what [this.action(a, player).isPossible()] answers. *)
Definition allowedActions (godMode : bool) (phase : Phase) (isCurrent : bool)
           (actionNeeded : option ActionStep) (isPossible : string → bool)
  : Outcome AllowedActions :=
  match (if godMode then godModeActions_keys phase else Returned []) with
  | Thrown m => Thrown m
  | Returned allowedActions =>
      if negb isCurrent then
        Returned {| step := None; aa_prompt := None; aa_skipIfOnlyOne := true;
                    aa_expand := true; actions := allowedActions |}
      else
        match actionNeeded with
        | Some actionStep =>
            Returned {| step := as_step actionStep; aa_prompt := as_prompt actionStep;
                        aa_skipIfOnlyOne := as_skipIfOnlyOne actionStep;
                        aa_expand := as_expand actionStep;
                        actions := allowedActions ++
                                   default [] (List.filter isPossible <$> as_actions actionStep) |}
        | None =>
            Returned {| step := None; aa_prompt := None; aa_skipIfOnlyOne := true;
                        aa_expand := true; actions := [] |}
        end
  end.

Section Moves.

Context {P St : Type}.

(** [getResolvedSelections(player, action?, args?)], from the call of
    [allowedActions] on. *)
Definition getResolvedSelectionsFor (declared : string → Action St)
           (godMode : bool) (phase : Phase) (isCurrent : bool)
           (actionNeeded : option ActionStep) (isPossible : string → bool)
           (chosen : option string) (args : option Args) : Outcome (option Resolved) :=
  match allowedActions godMode phase isCurrent actionNeeded isPossible with
  | Thrown m => Thrown m
  | Returned allowed => Returned (getResolvedSelections declared allowed chosen args)
  end.

(** [processMove({ player, action, args })]. [process] is the call that
    yields [error]: [godModeAction._process(args)] in god mode,
    [this.flow.processMove(...)] otherwise. An error that is falsy, the
    empty string, is not returned. *)
Definition processMove (player : P)
           (process : state P St → Outcome (option string) * state P St)
           (g : state P St) : Outcome (option string) * state P St :=
  inContextOfPlayer player
    (λ g, let (error, g) := process g in
          (match error with
           | Returned (Some e) => if decide (e = "") then Returned None else Returned (Some e)
           | Returned None => Returned None
           | Thrown m => Thrown m
           end, g)) g.

End Moves.
End Game.

(** ** The collection of the players *)

Module PlayerCollection.

Section Collection.

(** [P] is the type of the players, [position] their [position]. *)
Context {P : Type} (position : P → Z).

(** The array of the players and [currentPosition]. *)
Record t := {
  players : list P;
  currentPosition : option Z
}.

Definition atPosition (pos : Z) (this : t) : option P :=
  snd <$> list_find (λ p, position p = pos) (players this).

Definition current (this : t) : Outcome (option P) :=
  match currentPosition this with
  | None => Thrown "Calling players.current() when not taking turns"
  | Some pos => Returned (atPosition pos this)
  end.

Definition notCurrent (this : t) : list P :=
  filter (λ p, Some (position p) ≠ currentPosition this) (players this).

(** [setCurrent(player)], for a position or for a player, of which the
    position is taken. *)
Definition setCurrent (player : Z) (this : t) : Outcome (option P) * t :=
  if bool_decide (player = 0) || (Z.of_nat (length (players this)) <? player) || (player <? 1)
  then (Thrown ("No such player " +:+ pretty player), this)
  else
    let this := {| players := players this; currentPosition := Some player |} in
    (current this, this).

(** [turnOrderOf(player)]: the turn order starts with 1. *)
Definition turnOrderOf (player : Z) (this : t) : Outcome nat :=
  match list_find (λ p, position p = player) (players this) with
  | None => Thrown "No such player"
  | Some (index, _) => Returned (index + 1)%nat
  end.

Definition after (player : Z) (this : t) : Outcome (option P) :=
  match turnOrderOf player this with
  | Thrown m => Thrown m
  | Returned order => Returned (players this !! (order mod length (players this))%nat)
  end.

(** [next()]. Reading [position] off [undefined] is a [TypeError] of the
    engine, which has its own message. *)
Definition next (this : t) : Outcome (option P) * t :=
  let move_to (p : option P) :=
    match p with
    | None => (Thrown "TypeError", this)
    | Some p =>
        let this := {| players := players this; currentPosition := Some (position p) |} in
        (current this, this)
    end in
  match currentPosition this with
  | None => move_to (players this !! 0%nat)
  | Some pos =>
      match after pos this with
      | Thrown m => (Thrown m, this)
      | Returned p => move_to p
      end
  end.

End Collection.

End PlayerCollection.

(** ** Interrupts of the flow *)

Module Interrupt.

Inductive InterruptControl := repeat | continue | break | subflow.

#[global] Instance InterruptControl_eq_dec : EqDecision InterruptControl.
Proof. solve_decision. Defined.

Section Signals.

(** [D] is the type of [data]. *)
Context {D : Type}.

(** An entry of [interruptSignal]. *)
Record Signal := {
  data : option D;
  signal : InterruptControl
}.

(** [interrupt(signal, data)], on [interruptSignal]. *)
Definition interrupt (s : InterruptControl) (d : option D) (interruptSignal : list Signal)
  : list Signal :=
  if decide (s = subflow) then
    if forallb (λ x, bool_decide (signal x = subflow)) interruptSignal
    then interruptSignal ++ [{| data := d; signal := s |}]
    else interruptSignal
  else [{| data := d; signal := s |}].

End Signals.

End Interrupt.

(** ** Notions used in the statements *)

Section Notions.

Context {St : Type}.

(** The keys of the action's selections. No call changes them. *)
Definition keys (sels : list Selection) : list string :=
  (λ s, key (name s)) <$> sels.

(** How many selections have no argument yet. *)
Definition missing (ks : list string) (args : Args) : nat :=
  length (filter (λ k, args !! k = None) ks).

(** The action with its selections as an earlier call left them. *)
Definition with_selections (a : Action St) (sels : list Selection) : Action St :=
  {| a_name := a_name a; a_prompt := a_prompt a; selections := sels; moves := moves a |}.

(** [_getResolvedSelections] before [Exhausted] is read as [undefined]. *)
Definition resolution (a : Action St) (args : Args) : Resolution * list Selection :=
  Action.getResolved (S (length (selections a))) (a_name a) (a_prompt a) (selections a) args.

(** Every selection that is not skipped is filed in the record, as
    [s.name in args] has it. *)
Definition complete (sels : list Selection) (args : Args) : Prop :=
  Forall (λ s, r_skipIf (Selection.resolve s args) = Some true ∨
               has args (key (name s))) sels.

(** Every selection accepts what the record holds for it. *)
Definition valid (sels : list Selection) (args : Args) : Prop :=
  Forall (λ s, Selection.validate s (args !! key (name s)) args = Returned None) sels.

(** The options are tried in turn, each on the selections as the attempts
    before it left them, and every attempt comes back [undefined]. *)
Fixpoint branches_infeasible (a : Action St) (k : string) (args : Args)
         (sels : list Selection) (opts : list Argument) : Prop :=
  match opts with
  | [] => True
  | o :: opts =>
      let r := Action._getResolvedSelections (with_selections a sels) (<[k := o]> args) in
      r.1 = None ∧ branches_infeasible a k args r.2 opts
  end.

(** A recursive call that, given steps enough for the selections still
    without an argument, comes back and leaves the keys alone. *)
Definition rec_ok (ks : list string) (n : nat)
           (rec : list Selection → Args → Resolution * list Selection) : Prop :=
  ∀ sels args, keys sels = ks → (missing ks args < n)%nat →
    (rec sels args).1 ≠ Exhausted ∧ keys (rec sels args).2 = ks.

Definition rec_agree (ks : list string) (n : nat)
           (rec1 rec2 : list Selection → Args → Resolution * list Selection) : Prop :=
  ∀ sels args, keys sels = ks → (missing ks args < n)%nat → rec1 sels args = rec2 sels args.

(** The recursive calls on the options, each on the selections as the calls
    before it left them, all come back without a completion. *)
Fixpoint all_pruned (rec : list Selection → Args → Resolution * list Selection)
         (k : string) (args : Args) (sels : list Selection) (opts : list Argument) : Prop :=
  match opts with
  | [] => True
  | o :: opts =>
      (rec sels (<[k := o]> args)).1 = Infeasible ∧
      all_pruned rec k args (rec sels (<[k := o]> args)).2 opts
  end.

(** The pending moves a call hands back keep the arguments it was given. *)
Definition moves_extend (rec : list Selection → Args → Resolution * list Selection) : Prop :=
  ∀ sels args l, (rec sels args).1 = Moves l → Forall (λ m, args ⊆ pm_args m) l.

(** The selection a pending move puts to the player has no value among the
    move's arguments. For one of the action's own selections this is stated
    on the key at its position, which no call changes. *)
Definition asks (ks : list string) (m : PendingMove) : Prop :=
  match pm_selection m with
  | Own r => pm_args m !! key (r_name r) = None
  | Shared i => ∃ k, ks !! i = Some k ∧ pm_args m !! k = None
  end.

Definition moves_ask (ks : list string) (n : nat)
           (rec : list Selection → Args → Resolution * list Selection) : Prop :=
  ∀ sels args l, keys sels = ks → (missing ks args < n)%nat →
    (rec sels args).1 = Moves l → Forall (asks ks) l.


(** The recursive call of an action's resolution, as a call of the resolution
    of the action with the selections as they stand. *)
Definition nested (a : Action St) (sels : list Selection) (args : Args)
  : Resolution * list Selection :=
  resolution (with_selections a sels) args.

(** The behaviours applied one after the other, each once. *)
Definition apply_all (ms : list (Behavior St)) (args : Args) (st : St) : St :=
  fold_left (λ st move, (move args st).1) ms st.

(** No behaviour of the list throws, whatever the board. *)
Definition all_return (ms : list (Behavior St)) (args : Args) : Prop :=
  ∀ move st, move ∈ ms → (move args st).2 = None.

(** The test of [combinations] when both bounds are [n]. *)
Definition exactly (n : nat) {A} (c : list A) : bool :=
  (Z.of_nat n <=? Z.of_nat (length c)) && (Z.of_nat (length c) <=? Z.of_nat n).

(** What the constructor establishes and no method undoes: only a board
    selection has board candidates, and a choice selection has neither
    [min] nor [max] (the constructor leaves them commented out). *)
Definition constructed (r : ResolvedSelection) : Prop :=
  (is_Some (r_boardChoices r) → r_type r = board) ∧
  (r_type r = choices → Selection.isMultiR r = false).

(** All of a selection but what resolution writes: its prompt and, for a
    board selection, its candidates. *)
Definition details (s : Selection) :=
  (name s, type s, skipIfOnlyOne s, skipIf s, expand s, choicesOf s,
   min s, max s, initial s, regexp s, value s,
   if decide (type s = board) then None else boardChoices s).

(** The prompt in force once the scan of [_nextSelection] has passed a run
    of selections: each one that is not skipped and has a prompt replaces
    it. *)
Fixpoint prompt_after (p : string) (sels : list Selection) (args : Args) : string :=
  match sels with
  | [] => p
  | s :: rest =>
      let r := Selection.resolve s args in
      prompt_after (if decide (r_skipIf r = Some true) then p else default p (r_prompt r))
                   rest args
  end.

(** A selection that hands no prompt on: it is skipped or has none. *)
Definition silent (args : Args) (s : Selection) : Prop :=
  r_skipIf (Selection.resolve s args) = Some true ∨
  r_prompt (Selection.resolve s args) = None.

(** A call that leaves alone every selection that has an argument. *)
Definition keeps_filled (rec : list Selection → Args → Resolution * list Selection) : Prop :=
  ∀ sels args i s, sels !! i = Some s → is_Some (args !! key (name s)) →
    (rec sels args).2 !! i = Some s.

(** The options are tried in turn, each on the selections as the attempts
    before it left them, and no attempt finds the action complete. *)
Fixpoint branches_pending (a : Action St) (k : string) (args : Args)
         (sels : list Selection) (opts : list Argument) : Prop :=
  match opts with
  | [] => True
  | o :: opts =>
      let r := Action._getResolvedSelections (with_selections a sels) (<[k := o]> args) in
      r.1 ≠ Some [] ∧ branches_pending a k args r.2 opts
  end.

(** A call that works on the board and leaves the player context alone. *)
Definition on_board {P T} (f : St → T * St) (g : Game.state P St) : T * Game.state P St :=
  let (r, st) := f (Game.rest g) in
  (r, {| Game.ctx_player := Game.ctx_player g; Game.rest := st |}).

(** The calls of [interrupt] made one after the other. *)
Definition interrupts {D} (calls q : list (Interrupt.Signal (D := D))) : list Interrupt.Signal :=
  fold_left (λ q c, Interrupt.interrupt (Interrupt.signal c) (Interrupt.data c) q) calls q.

(** The last loop interrupt among the calls. *)
Definition last_loop {D} (calls : list (Interrupt.Signal (D := D))) : option Interrupt.Signal :=
  last (filter (λ c, Interrupt.signal c ≠ Interrupt.subflow) calls).

(** A selection of which [options()] lists the legal values one by one: a
    choice among given choices, a single element among given candidates, or
    a number between two given bounds that is not unbounded. *)
Definition enumerable (r : ResolvedSelection) : Prop :=
  match r_type r with
  | choices => is_Some (r_choices r)
  | board => is_Some (r_boardChoices r) ∧ Selection.isMultiR r = false
  | number => is_Some (r_min r) ∧ Selection.isUnbounded r = false
  | _ => False
  end.

(** A number that is not an integer: a fraction, [NaN] or an infinity. *)
Definition not_integer (v : SingleArgument) : bool :=
  match v with
  | VFraction _ _ | VNaN | VInfinity _ => true
  | _ => false
  end.

(** A number that is neither below [min] nor above [max], as [validate]
    compares them. *)
Definition within (r : ResolvedSelection) (v : SingleArgument) : Prop :=
  (∀ m, r_min r = Some m → below v m = false) ∧
  (∀ m, r_max r = Some m → above v m = false).

End Notions.

(** ** Actions of the test suite and of the scenarios *)

Module Examples.

(** A board that keeps the calls of a spy. *)
Definition Log := list Args.

Definition spy : Behavior Log := λ args log, (log ++ [args], None).

Definition num (k : Z) : Argument := Single (VNum k).

Definition str (t : string) : Argument := Single (VStr t).

(** The number filed under a key, 0 when there is none. *)
Definition number_at (k : string) (args : Args) : Z :=
  match args !! k with
  | Some (Single (VNum v)) => v
  | _ => 0
  end.

(** [action({prompt}).chooseNumber('n', {min: 0, max: 3}).do(spy)] *)
Definition counters : Action Log :=
  Action.do spy
    (Action.chooseNumber "n" (Some (Const 0)) (Some (Const 3)) None None None None None
       (Action.action "add some counters")).

(** [action({prompt}).chooseFrom('c', [])] *)
Definition nothing_to_choose : Action Log :=
  Action.chooseFrom "c" (Const (ChoiceList [])) None None None None
    (Action.action "pick an even number").

(** [action({prompt}).chooseNumber('n', {min: 5, max: 4})] *)
Definition empty_range : Action Log :=
  Action.chooseNumber "n" (Some (Const 5)) (Some (Const 4)) None None None None None
    (Action.action "pick an even number").


(** [action({prompt: 'p'}).chooseFrom('r', ['oil', 'garbage'], {expand})
      .chooseNumber('n', {max: ({r}) => r === 'oil' ? 3 : 1})] *)
Definition resources (expand : option bool) : Action Log :=
  Action.chooseNumber "n" None
    (Some (Computed (λ args, if decide (args !! "r" = Some (str "oil")) then 3 else 1)))
    None None None None None
    (Action.chooseFrom "r" (Const (ChoiceList [VStr "oil"; VStr "garbage"]))
       None None None expand
       (Action.action "p")).

(** [action({prompt}).chooseFrom('a', [1, 2, 3])
      .chooseNumber('n', {min: ({a}) => a, max: 2})] *)
Definition at_most_two : Action Log :=
  Action.chooseNumber "n" (Some (Computed (number_at "a"))) (Some (Const 2))
    None None None None None
    (Action.chooseFrom "a" (Const (ChoiceList [VNum 1; VNum 2; VNum 3]))
       None None None None
       (Action.action "pick")).

(** The number of the element filed under a key, 0 when there is none. *)
Definition element_at (k : string) (args : Args) : Z :=
  match args !! k with
  | Some (Single (VElement e)) => Z.of_nat e
  | _ => 0
  end.

(** [action({prompt}).chooseOnBoard('e', [1, 2, 3])
      .chooseNumber('n', {min: ({e}) => e, max: 2})], the elements being
    numbered and [min] the number of the chosen one. *)
Definition spaces_up_to_two : Action Log :=
  Action.chooseNumber "n" (Some (Computed (element_at "e"))) (Some (Const 2))
    None None None None None
    (Action.chooseOnBoard "e" (Const [1; 2; 3]%nat) None None None None None None None
       (Action.action "pick")).

(** [chooseOnBoard('cards', [1, 2, 3], {min: 1, max: 2})] *)
Definition cards : Selection :=
  Selection.new (Some "cards")
    {| d_prompt := None; d_skipIfOnlyOne := None; d_skipIf := None; d_expand := None;
       d_payload := selectOnBoard (Const [1; 2; 3]%nat) (Some (Const 1)) (Some (Const 2)) None |}.

(** Three declared actions, the last of which cannot be completed. *)
Definition declared (n : string) : Action Log :=
  if decide (n = "take") then resources None
  else if decide (n = "count") then counters
  else nothing_to_choose.

Definition turn : Game.AllowedActions :=
  {| Game.step := Some "turn"; Game.aa_prompt := Some "your move";
     Game.aa_skipIfOnlyOne := true; Game.aa_expand := false;
     Game.actions := ["take"; "count"; "sell"] |}.


(** [action({prompt}).chooseFrom('c', [1]).chooseNumber('n', {max: 3})] *)
Definition one_choice_then_number : Action Log :=
  Action.chooseNumber "n" None (Some (Const 3)) None None None None None
    (Action.chooseFrom "c" (Const (ChoiceList [VNum 1])) None None None None
       (Action.action "pick")).

(** A behaviour that notes that it ran after the spy, and one that throws
    without writing. *)
Definition mark : Behavior Log :=
  λ args log, (log ++ [<["done" := Single (VBool true)]> args], None).

Definition boom : Behavior Log := λ args log, (log, Some (Error "boom")).

(** [counters], with [mark] registered after the spy. *)
Definition counters_marked : Action Log := Action.do mark counters.

(** [counters], with [boom] and then [mark] registered after the spy. *)
Definition counters_failing : Action Log := Action.do mark (Action.do boom counters).

(** A behaviour that throws a string, [throw 'boom'], without writing. *)
Definition shout : Behavior Log := λ args log, (log, Some Messageless).

(** [counters], with [shout] and then [mark] registered after the spy. *)
Definition counters_shouting : Action Log := Action.do mark (Action.do shout counters).

Definition seven : Args := {["n" := num 7]}.

Definition two : Args := {["n" := num 2]}.

(** [chooseNumber('n', {min: 1, max: 101})], resolved. *)
Definition hundred_and_one : ResolvedSelection :=
  Selection.resolve
    (Selection.new (Some "n")
       {| d_prompt := None; d_skipIfOnlyOne := None; d_skipIf := None; d_expand := None;
          d_payload := selectNumber (Some (Const 1)) (Some (Const 101)) None |}) ∅.

(** A game whose other state is a counter, with a callback that counts and
    then throws, and one that counts and returns what it found. *)
Definition failing (g : Game.state nat nat) : Outcome unit * Game.state nat nat :=
  (Thrown "No such action", {| Game.ctx_player := Game.ctx_player g; Game.rest := S (Game.rest g) |}).

Definition passing (g : Game.state nat nat) : Outcome nat * Game.state nat nat :=
  (Returned (Game.rest g), {| Game.ctx_player := Game.ctx_player g; Game.rest := S (Game.rest g) |}).

(** What a pending move shows: its arguments and, of its selection, the
    name, the kind, the bounds and the candidates. *)
Definition shown (sels : list Selection) (m : PendingMove) :=
  (pm_args m,
   (λ r, (r_name r, r_type r, r_min r, r_max r, r_choices r, r_boardChoices r))
     <$> Action.deref sels (pm_selection m)).

Definition shown_all (r : option (list PendingMove) * list Selection) :=
  fmap (M := option) (fmap (M := list) (shown r.2)) r.1.

(** [chooseOnBoard('cards', [1, 2], {number: 2})] *)
Definition both_cards : Selection :=
  Selection.new (Some "cards")
    {| d_prompt := None; d_skipIfOnlyOne := None; d_skipIf := None; d_expand := None;
       d_payload := selectOnBoard (Const [1; 2]%nat) None None (Some (Const 2)) |}.

(** [chooseOnBoard('cards', [1], {min: 2})] *)
Definition too_few_cards : Selection :=
  Selection.new (Some "cards")
    {| d_prompt := None; d_skipIfOnlyOne := None; d_skipIf := None; d_expand := None;
       d_payload := selectOnBoard (Const [1]%nat) (Some (Const 2)) None None |}.

(** [chooseFrom('r', ['oil', 'garbage'], {prompt: 'Which resource?'})] *)
Definition which_resource : Selection :=
  Selection.new (Some "r")
    {| d_prompt := Some (Const "Which resource?"); d_skipIfOnlyOne := None;
       d_skipIf := None; d_expand := None;
       d_payload := selectFromChoices (Const (ChoiceList [VStr "oil"; VStr "garbage"])) None |}.

(** [chooseNumber('n', {max: 3})] *)
Definition how_many : Selection :=
  Selection.new (Some "n")
    {| d_prompt := None; d_skipIfOnlyOne := None; d_skipIf := None; d_expand := None;
       d_payload := selectNumber None (Some (Const 3)) None |}.

Definition oil : Args := {["r" := str "oil"]}.

(** [chooseFrom('g', ['high', 'low'], {prompt: ''})] *)
Definition unprompted : Selection :=
  Selection.new (Some "g")
    {| d_prompt := Some (Const ""); d_skipIfOnlyOne := None;
       d_skipIf := None; d_expand := None;
       d_payload := selectFromChoices (Const (ChoiceList [VStr "high"; VStr "low"])) None |}.

Definition oil_of_grade : Args := {["r" := str "oil"; "g" := str "high"]}.

(** A behaviour that throws an [Error] with an empty message. *)
Definition mute : Behavior Log := λ args log, (log, Some (Error "")).

(** [counters], with [mute] and then [mark] registered after the spy. *)
Definition counters_mute : Action Log :=
  Action.do mark (Action.do mute counters).

(** A game in the context of no player, with an empty log for a board. *)
Definition fresh : Game.state nat Log :=
  {| Game.ctx_player := None; Game.rest := [] |}.

(** An action step that offers three actions. *)
Definition turn_step : Game.ActionStep :=
  {| Game.as_step := Some "turn"; Game.as_prompt := Some "your move";
     Game.as_skipIfOnlyOne := true; Game.as_expand := false;
     Game.as_actions := Some ["take"; "count"; "sell"] |}.

(** Players at the positions 1, 2 and 3, the third being the current one. *)
Definition table : PlayerCollection.t (P := Z) :=
  {| PlayerCollection.players := [1; 2; 3];
     PlayerCollection.currentPosition := Some 3 |}.

(** [chooseNumber('n', {min: 0, max: 3})] *)
Definition from_nought_to_three : Selection :=
  Selection.new (Some "n")
    {| d_prompt := None; d_skipIfOnlyOne := None; d_skipIf := None; d_expand := None;
       d_payload := selectNumber (Some (Const 0)) (Some (Const 3)) None |}.

(** [action({prompt}).chooseFrom('constructor', ['a', 'b']).do(spy)] *)
Definition named_constructor : Action Log :=
  Action.do spy
    (Action.chooseFrom "constructor" (Const (ChoiceList [VStr "a"; VStr "b"]))
       None None None None
       (Action.action "pick a letter")).

End Examples.

(** ** Lemmas on the scan and on the store *)

Section StoreLemmas.

Lemma keys_alter_write_prompt p i sels :
  keys (alter (Action.write_prompt p) i sels) = keys sels.
Proof.
  unfold keys. revert i. induction sels as [|s sels IH]; intros [|i]; simpl; try done.
  f_equal. apply IH.
Qed.

Lemma keys_alter_override opts i sels :
  keys (alter (Action.override_shared opts) i sels) = keys sels.
Proof.
  unfold keys. revert i. induction sels as [|s sels IH]; intros [|i]; simpl; try done.
  - unfold Action.override_shared. by destruct (decide _).
  - f_equal. apply IH.
Qed.

Lemma keys_length sels sels' : keys sels = keys sels' → length sels = length sels'.
Proof. unfold keys. intros H. apply (f_equal length) in H. by rewrite !length_fmap in H. Qed.

Lemma scan_cons i s rest p args :
  Action.scan i (s :: rest) p args =
  if decide (r_skipIf (Selection.resolve s args) = Some true)
  then Action.scan (S i) rest p args
  else if decide (has args (key (name s)))
       then Action.scan (S i) rest (default p (r_prompt (Selection.resolve s args))) args
       else Some (i, s, Selection.resolve s args,
                  default p (r_prompt (Selection.resolve s args))).
Proof. reflexivity. Qed.

Lemma not_has args k : ¬ has args k ↔ args !! k = None ∧ k ∉ Object_prototype.
Proof.
  unfold has. rewrite eq_None_not_Some. tauto.
Qed.

Lemma scan_Some i0 rest p args i s selection p' :
  Action.scan i0 rest p args = Some (i, s, selection, p') →
  ∃ j, i = (i0 + j)%nat ∧ rest !! j = Some s ∧
       selection = Selection.resolve s args ∧
       r_skipIf selection ≠ Some true ∧
       args !! key (name s) = None.
Proof.
  revert i0 p. induction rest as [|s0 rest IH]; intros i0 p; [done|].
  rewrite scan_cons. repeat case_decide.
  - intros Hs. destruct (IH _ _ Hs) as (j & -> & ? & ? & ? & ?).
    exists (S j). split; [lia|done].
  - intros Hs. destruct (IH _ _ Hs) as (j & -> & ? & ? & ? & ?).
    exists (S j). split; [lia|done].
  - intros [= <- <- <- <-]. exists 0%nat. split; [lia|].
    repeat split; try done. by apply not_has.
Qed.

(** The selection found is not in the record, by an own key or otherwise. *)
Lemma scan_open i0 rest p args i s selection p' :
  Action.scan i0 rest p args = Some (i, s, selection, p') → ¬ has args (key (name s)).
Proof.
  revert i0 p. induction rest as [|s0 rest IH]; intros i0 p; [done|].
  rewrite scan_cons. repeat case_decide; [apply IH..|]. by intros [= <- <- <- <-].
Qed.

Lemma scan_None i0 rest p args :
  Action.scan i0 rest p args = None ↔ complete rest args.
Proof.
  unfold complete. revert i0 p. induction rest as [|s0 rest IH]; intros i0 p.
  - split; [constructor|done].
  - rewrite scan_cons. repeat case_decide.
    + rewrite IH. split; [intros; constructor; auto|by inversion 1].
    + rewrite IH. split; [intros; constructor; auto|by inversion 1].
    + split; [done|]. inversion 1 as [|? ? [?|?] ?]; done.
Qed.

Lemma missing_insert ks k o (args : Args) :
  k ∈ ks → args !! k = None → (missing ks (<[k := o]> args) < missing ks args)%nat.
Proof.
  unfold missing. induction ks as [|k0 ks IH]; [by inversion 1|].
  intros Hin Hk. rewrite !filter_cons.
  assert (Hle : ∀ l : list string,
    (length (filter (λ k', <[k := o]> args !! k' = None) l) ≤
     length (filter (λ k', args !! k' = None) l))%nat).
  { induction l as [|x l IHl]; [done|]. rewrite !filter_cons.
    destruct (decide (<[k:=o]> args !! x = None)) as [Hx|Hx].
    - destruct (decide (k = x)) as [->|Hne]; [by rewrite lookup_insert_eq in Hx|].
      rewrite lookup_insert_ne in Hx by done. rewrite decide_True by done. simpl. lia.
    - destruct (decide (args !! x = None)); simpl; lia. }
  destruct (decide (k = k0)) as [->|Hne].
  - rewrite (decide_False (P := <[k0:=o]> args !! k0 = None))
      by (by rewrite lookup_insert_eq).
    rewrite decide_True by done. simpl. specialize (Hle ks). lia.
  - apply elem_of_cons in Hin as [?|Hin]; [done|]. specialize (IH Hin Hk).
    rewrite lookup_insert_ne by done.
    destruct (decide (args !! k0 = None)); simpl; lia.
Qed.

Lemma missing_le ks (args : Args) : (missing ks args ≤ length ks)%nat.
Proof. unfold missing. apply length_filter. Qed.

Lemma nextSelection_complete p sels args :
  complete sels args → Action._nextSelection p sels args = (None, sels).
Proof.
  intros H. unfold Action._nextSelection.
  by rewrite (proj2 (scan_None 0 sels p args) H).
Qed.

Lemma nextSelection_None p sels args sels' :
  Action._nextSelection p sels args = (None, sels') → complete sels args ∧ sels' = sels.
Proof.
  unfold Action._nextSelection.
  destruct (Action.scan 0 sels p args) as [[[[i s] sel] p']|] eqn:Hscan.
  - repeat case_match; done.
  - intros [= <-]. split; [by eapply scan_None|done].
Qed.

Lemma nextSelection_Some p sels args ref sel sels' :
  Action._nextSelection p sels args = (Some (ref, sel), sels') →
  keys sels' = keys sels ∧ key (r_name sel) ∈ keys sels ∧
  args !! key (r_name sel) = None ∧ ¬ complete sels args.
Proof.
  unfold Action._nextSelection.
  destruct (Action.scan 0 sels p args) as [[[[i s] sel0] p']|] eqn:Hscan; [|done].
  assert (Hnc : ¬ complete sels args).
  { intros Hc. apply (scan_None 0 sels p args) in Hc. congruence. }
  destruct (scan_Some _ _ _ _ _ _ _ _ Hscan) as (j & -> & Hj & -> & Hskip & Hk).
  assert (Hin : key (name s) ∈ keys sels).
  { unfold keys. apply list_elem_of_fmap. exists s. split; [done|].
    by eapply list_elem_of_lookup_2. }
  repeat case_match; intros [= <- <- <-]; simpl;
    rewrite ?keys_alter_write_prompt; done.
Qed.

Lemma nextSelection_ref p sels args ref sel sels' :
  Action._nextSelection p sels args = (Some (ref, sel), sels') →
  match ref with
  | Own r => r_name r = r_name sel
  | Shared i => keys sels !! i = Some (key (r_name sel))
  end.
Proof.
  unfold Action._nextSelection.
  destruct (Action.scan 0 sels p args) as [[[[i s] sel0] p']|] eqn:Hscan; [|done].
  destruct (scan_Some _ _ _ _ _ _ _ _ Hscan) as (j & -> & Hj & -> & _ & _).
  assert (Hkj : keys sels !! j = Some (key (name s))).
  { unfold keys. by rewrite list_lookup_fmap, Hj. }
  repeat case_match; intros [= <- <- <-]; simpl; done.
Qed.

Lemma asks_deref sels m :
  asks (keys sels) m →
  ∃ r, Action.deref sels (pm_selection m) = Some r ∧ pm_args m !! key (r_name r) = None.
Proof.
  unfold asks, Action.deref. destruct (pm_selection m) as [i|r]; [|by exists r].
  intros (k & Hk & Hfree). unfold keys in Hk. rewrite list_lookup_fmap in Hk.
  destruct (sels !! i) as [s|]; [|done]. simpl in *. injection Hk as <-.
  by exists (Selection.resolve s ∅).
Qed.




End StoreLemmas.

(** ** The recursion comes back, whatever the steps beyond those needed *)

Section FrameLemmas.

Variable rec : list Selection → Args → Resolution * list Selection.
Variables (ks : list string) (n : nat).
Variables (selection : ResolvedSelection) (args : Args).
Hypothesis rec_is_ok : rec_ok ks n rec.
Hypothesis key_in : key (r_name selection) ∈ ks.
Hypothesis key_free : args !! key (r_name selection) = None.
Hypothesis enough : (missing ks args < S n)%nat.

Lemma step_ok l o :
  Action.exhausted l = false → keys (Action.store l) = ks →
  Action.exhausted (Action.step rec selection args l o) = false ∧
  keys (Action.store (Action.step rec selection args l o)) = ks.
Proof.
  intros Hex Hks. unfold Action.step. rewrite Hex.
  destruct (rec_is_ok (Action.store l) (<[key (r_name selection) := o]> args)) as [Hne Hk].
  { done. }
  { pose proof (missing_insert ks _ o args key_in key_free). lia. }
  destruct (rec _ _) as [[| |submoves] sels']; simpl in *; done.
Qed.

Lemma fold_step_ok opts l :
  Action.exhausted l = false → keys (Action.store l) = ks →
  Action.exhausted (fold_left (Action.step rec selection args) opts l) = false ∧
  keys (Action.store (fold_left (Action.step rec selection args) opts l)) = ks.
Proof.
  revert l. induction opts as [|o opts IH]; intros l Hex Hks; simpl; [done|].
  destruct (step_ok l o Hex Hks). by apply IH.
Qed.

Lemma fold_step_ext rec' opts l :
  rec_agree ks n rec rec' →
  Action.exhausted l = false → keys (Action.store l) = ks →
  fold_left (Action.step rec selection args) opts l =
  fold_left (Action.step rec' selection args) opts l.
Proof.
  intros Hagree. revert l. induction opts as [|o opts IH]; intros l Hex Hks; simpl; [done|].
  assert (Hstep : Action.step rec' selection args l o = Action.step rec selection args l o).
  { unfold Action.step. rewrite Hex, Hagree; [done|done|].
    pose proof (missing_insert ks _ o args key_in key_free). lia. }
  rewrite Hstep. destruct (step_ok l o Hex Hks). by apply IH.
Qed.

End FrameLemmas.

Section Termination.

Variables (action : option string) (prompt : string).

Lemma frame_ok rec ks n sels args :
  rec_ok ks n rec → keys sels = ks → (missing ks args < S n)%nat →
  (Action.frame rec action prompt sels args).1 ≠ Exhausted ∧
  keys (Action.frame rec action prompt sels args).2 = ks.
Proof.
  intros Hrec Hks Hm. unfold Action.frame.
  destruct (Action._nextSelection prompt sels args) as [[[ref sel]|] sels1] eqn:Hnext.
  2: { apply nextSelection_None in Hnext as [_ ->]. done. }
  apply nextSelection_Some in Hnext as (Hk1 & Hin & Hfree & _).
  rewrite Hks in Hk1, Hin.
  destruct (negb (Selection.isPossible sel)); [done|].
  destruct (Selection.isUnbounded sel); [done|].
  unfold Action.simulate.
  match goal with |- context [fold_left _ _ ?l0] =>
    destruct (fold_step_ok rec ks n sel args Hrec Hin Hfree Hm (Selection.options sel) l0)
      as [Hex Hst]; [done|done|]
  end.
  rewrite Hex.
  repeat case_match; simpl; rewrite ?keys_alter_override; done.
Qed.

Lemma frame_ext rec rec' ks n sels args :
  rec_ok ks n rec → rec_agree ks n rec rec' →
  keys sels = ks → (missing ks args < S n)%nat →
  Action.frame rec' action prompt sels args = Action.frame rec action prompt sels args.
Proof.
  intros Hrec Hagree Hks Hm. unfold Action.frame.
  destruct (Action._nextSelection prompt sels args) as [[[ref sel]|] sels1] eqn:Hnext; [|done].
  apply nextSelection_Some in Hnext as (Hk1 & Hin & Hfree & _).
  rewrite Hks in Hk1, Hin.
  unfold Action.simulate.
  by rewrite <- (fold_step_ext rec ks n sel args Hrec Hin Hfree Hm rec').
Qed.

Lemma getResolved_ok ks n : rec_ok ks n (Action.getResolved n action prompt).
Proof.
  induction n as [|n IH]; intros sels args Hks Hm; [lia|].
  simpl. by apply (frame_ok _ ks n).
Qed.

(** Steps beyond the number of selections still without an argument change
    nothing. *)
Lemma getResolved_fuel_irrelevant n m sels args :
  (missing (keys sels) args < n)%nat → (n ≤ m)%nat →
  Action.getResolved m action prompt sels args = Action.getResolved n action prompt sels args.
Proof.
  revert m sels args. induction n as [|n IH]; intros m sels args Hm Hle; [lia|].
  destruct m as [|m]; [lia|]. simpl.
  apply (frame_ext _ _ (keys sels) n); [apply getResolved_ok| |done|done].
  intros sels' args' Hks' Hm'. symmetry. apply IH; [by rewrite Hks'|lia].
Qed.

(** With one step per selection and one more, the recursion comes back. *)
Lemma getResolved_fuel_enough sels args :
  (Action.getResolved (S (length sels)) action prompt sels args).1 ≠ Exhausted.
Proof.
  apply (getResolved_ok (keys sels)); [done|].
  pose proof (missing_le (keys sels) args). unfold keys in *.
  rewrite length_fmap in *. lia.
Qed.

End Termination.

(** ** Selection: bounds, enumeration and validation *)

Section SelectionProperties.

Import Selection.

Lemma range_spec lo hi k : VNum k ∈ (VNum <$> Utils.range lo hi) ↔ lo ≤ k ≤ hi.
Proof.
  unfold Utils.range. rewrite list_elem_of_fmap. split.
  - intros (k' & [= ->] & Hin). apply list_elem_of_fmap in Hin as (i & -> & Hi).
    apply elem_of_seq in Hi. lia.
  - intros Hk. exists k. split; [done|]. apply list_elem_of_fmap.
    exists (Z.to_nat (k - lo)). split; [lia|]. apply elem_of_seq. lia.
Qed.

Lemma options_number r :
  r_type r = number → isUnbounded r = false →
  ∃ hi, r_max r = Some hi ∧
        options r = (λ k, Single (VNum k)) <$> Utils.range (default 1 (r_min r)) hi.
Proof.
  intros Hty Hub. unfold options. rewrite Hub. rewrite decide_True by done.
  unfold isUnbounded in Hub. rewrite decide_True in Hub by done.
  destruct (r_max r) as [hi|]; [|done]. by exists hi.
Qed.

Lemma unbounded_options r : isUnbounded r = true → options r = [].
Proof. intros H. unfold options. by rewrite H. Qed.

Lemma unbounded_possible r : isUnbounded r = true → isPossible r = true.
Proof.
  unfold isUnbounded, isPossible.
  destruct (r_type r) eqn:Hty; simpl; try done.
  destruct (r_max r) as [hi|]; [|done].
  intros H. apply Z.ltb_lt in H. apply Z.leb_le. lia.
Qed.

Lemma isUnbounded_iff r :
  isUnbounded r = true ↔
  (r_type r = number ∧
     (r_max r = None ∨ ∃ hi, r_max r = Some hi ∧ 100 < hi - default 1 (r_min r))) ∨
  r_type r = text ∨ r_type r = button.
Proof.
  unfold isUnbounded. destruct (r_type r) eqn:Hty; simpl.
  1,2: split; [done|intros [[? _]|[?|?]]; done].
  - split; [by right; left|done].
  - destruct (r_max r) as [hi|].
    + rewrite Z.ltb_lt. split.
      * intros H. left. split; [done|]. right. by exists hi.
      * intros [[_ [?|(hi' & [= <-] & ?)]]|[?|?]]; done.
    + split; [|done]. intros _. left. split; [done|by left].
  - split; [by right; right|done].
Qed.

End SelectionProperties.

(** ** Action: resolution at the top *)

Section ResolutionProperties.

Context {St : Type}.
Implicit Types (a : Action St) (args : Args).

Lemma resolution_unfold a args :
  resolution a args =
  Action.frame (Action.getResolved (length (selections a)) (a_name a) (a_prompt a))
    (a_name a) (a_prompt a) (selections a) args.
Proof. reflexivity. Qed.

Lemma resolved_of_resolution a args :
  Action._getResolvedSelections a args =
  (match (resolution a args).1 with Moves l => Some l | _ => None end, (resolution a args).2).
Proof.
  unfold Action._getResolvedSelections, resolution.
  by destruct (Action.getResolved _ _ _ _ _) as [[| |l] sels].
Qed.

Lemma resolved_None a args :
  (Action._getResolvedSelections a args).1 = None ↔ (resolution a args).1 = Infeasible.
Proof.
  rewrite resolved_of_resolution. simpl.
  pose proof (getResolved_fuel_enough (a_name a) (a_prompt a) (selections a) args) as Hne.
  fold (resolution a args) in Hne.
  destruct (resolution a args).1; naive_solver.
Qed.

Lemma resolved_Some a args l :
  (Action._getResolvedSelections a args).1 = Some l ↔ (resolution a args).1 = Moves l.
Proof.
  rewrite resolved_of_resolution. simpl.
  destruct (resolution a args).1; naive_solver.
Qed.

(** A nested call is the resolution of the action with the selections as
    they stand. *)
Lemma nested_is_resolution a sels args :
  keys sels = keys (selections a) →
  (missing (keys sels) args < length (selections a))%nat →
  Action.getResolved (length (selections a)) (a_name a) (a_prompt a) sels args =
  resolution (with_selections a sels) args.
Proof.
  intros Hk Hm. unfold resolution. cbn [selections a_name a_prompt with_selections].
  rewrite <- (keys_length _ _ Hk). symmetry.
  apply getResolved_fuel_irrelevant; [|lia].
  by rewrite (keys_length _ _ Hk).
Qed.

Lemma resolved_complete a args :
  complete (selections a) args →
  Action._getResolvedSelections a args = (Some [], selections a).
Proof.
  intros Hc. rewrite resolved_of_resolution, resolution_unfold. unfold Action.frame.
  by rewrite nextSelection_complete.
Qed.

Lemma resolved_leaf a args ref selection sels :
  Action._nextSelection (a_prompt a) (selections a) args = (Some (ref, selection), sels) →
  Selection.isUnbounded selection = true →
  Action._getResolvedSelections a args =
  (Some [{| pm_action := a_name a; pm_args := args; pm_selection := ref |}], sels).
Proof.
  intros Hnext Hub. rewrite resolved_of_resolution, resolution_unfold. unfold Action.frame.
  by rewrite Hnext, (unbounded_possible _ Hub), Hub.
Qed.

Lemma validate_all_valid sels args :
  valid sels args → Action.validate_all sels args = Returned None.
Proof.
  unfold valid. induction 1 as [|s sels Hs _ IH]; simpl; [done|]. by rewrite Hs.
Qed.

Lemma run_moves_all_return (ms : list (Behavior St)) args st :
  all_return ms args → Action.run_moves ms args st = (None, apply_all ms args st).
Proof.
  revert st. induction ms as [|move ms IH]; intros st Hall; simpl; [done|].
  pose proof (Hall move st (list_elem_of_here _ _)) as Hm.
  destruct (move args st) as [st' [e|]] eqn:Hmove; simpl in *; [done|].
  unfold apply_all in *. simpl.
  apply IH. intros m' st'' Hin. apply Hall. by apply list_elem_of_further.
Qed.

Lemma run_moves_throw (pre post : list (Behavior St)) (move : Behavior St) args st e :
  all_return pre args →
  (move args (apply_all pre args st)).2 = Some e →
  Action.run_moves (pre ++ move :: post) args st =
  (Some e, (move args (apply_all pre args st)).1).
Proof.
  revert st. induction pre as [|m0 pre IH]; intros st Hall Hthrow; simpl.
  - unfold apply_all in Hthrow. simpl in Hthrow.
    by destruct (move args st) as [st' [e'|]]; simpl in *; simplify_eq.
  - pose proof (Hall m0 st (list_elem_of_here _ _)) as Hm.
    unfold apply_all in *. simpl in *.
    destruct (m0 args st) as [st' [e'|]] eqn:Hm0; simpl in *; [done|].
    apply IH; [|done]. intros m' st'' Hin. apply Hall. by apply list_elem_of_further.
Qed.

Lemma process_complete a args st error :
  Action.validate_all (selections a) args = Returned error →
  complete (selections a) args →
  Action._process a args st =
  (Action.caught (Action.run_moves (moves a) args st).1,
   (Action.run_moves (moves a) args st).2).
Proof.
  intros Hv Hc. unfold Action._process. rewrite Hv, (resolved_complete _ _ Hc). simpl.
  by destruct (Action.run_moves _ _ _).
Qed.

End ResolutionProperties.

(** ** The loop over the options *)

Section LoopProperties.

Variable rec : list Selection → Args → Resolution * list Selection.
Variables (ks : list string) (n : nat).
Variables (selection : ResolvedSelection) (args : Args).
Hypothesis rec_is_ok : rec_ok ks n rec.
Hypothesis key_in : key (r_name selection) ∈ ks.
Hypothesis key_free : args !! key (r_name selection) = None.
Hypothesis enough : (missing ks args < S n)%nat.

Lemma fold_step_survivors opts l :
  Action.exhausted l = false → keys (Action.store l) = ks →
  Action.possibleOptions (fold_left (Action.step rec selection args) opts l) = [] ↔
  Action.possibleOptions l = [] ∧
  all_pruned rec (key (r_name selection)) args (Action.store l) opts.
Proof.
  revert l. induction opts as [|o opts IH]; intros l Hex Hks; simpl; [tauto|].
  destruct (step_ok rec ks n selection args rec_is_ok key_in key_free enough l o Hex Hks)
    as [Hex' Hks'].
  rewrite (IH _ Hex' Hks'). unfold Action.step. rewrite Hex.
  destruct (rec_is_ok (Action.store l) (<[key (r_name selection) := o]> args)) as [Hne _].
  { done. }
  { pose proof (missing_insert ks _ o args key_in key_free). lia. }
  destruct (rec _ _) as [[| |submoves] sels']; simpl in *; [done|tauto|].
  split; [|intros [_ [? _]]; done]. intros [Hnil _]. by destruct (Action.possibleOptions l).
Qed.

Lemma fold_step_extend opts l :
  moves_extend rec →
  Forall (λ m, args ⊆ pm_args m) (Action.resolvedSelections l) →
  Forall (λ m, args ⊆ pm_args m)
         (Action.resolvedSelections (fold_left (Action.step rec selection args) opts l)).
Proof.
  intros Hrec. revert l. induction opts as [|o opts IH]; intros l Hl; simpl; [done|].
  apply IH. unfold Action.step. destruct (Action.exhausted l); [done|].
  destruct (rec _ _) as [[| |submoves] sels'] eqn:Hr; simpl; try done.
  apply Forall_app. split; [done|].
  pose proof (Hrec (Action.store l) (<[key (r_name selection) := o]> args) submoves) as Hsub.
  rewrite Hr in Hsub. specialize (Hsub eq_refl).
  eapply Forall_impl; [exact Hsub|]. intros m Hm. simpl in Hm.
  etrans; [|exact Hm]. by apply insert_subseteq.
Qed.

Lemma fold_step_asks opts l :
  moves_ask ks n rec →
  Action.exhausted l = false → keys (Action.store l) = ks →
  Forall (asks ks) (Action.resolvedSelections l) →
  Forall (asks ks)
         (Action.resolvedSelections (fold_left (Action.step rec selection args) opts l)).
Proof.
  intros Hask. revert l. induction opts as [|o opts IH]; intros l Hex Hks Hl; simpl; [done|].
  destruct (step_ok rec ks n selection args rec_is_ok key_in key_free enough l o Hex Hks)
    as [Hex' Hks'].
  apply IH; [done|done|]. unfold Action.step. rewrite Hex.
  assert (Hm : (missing ks (<[key (r_name selection) := o]> args) < n)%nat).
  { pose proof (missing_insert ks _ o args key_in key_free). lia. }
  pose proof (Hask (Action.store l) (<[key (r_name selection) := o]> args)) as Hsub.
  destruct (rec _ _) as [[| |submoves] sels'] eqn:Hr; simpl; try done.
  apply Forall_app. split; [done|]. by apply (Hsub submoves).
Qed.

End LoopProperties.

Section Subsumption.

Variables (action : option string) (prompt : string).

Lemma frame_extend rec : moves_extend rec → moves_extend (Action.frame rec action prompt).
Proof.
  intros Hrec sels args l. unfold Action.frame.
  destruct (Action._nextSelection prompt sels args) as [[[ref sel]|] sels1] eqn:Hnext.
  2: { intros [= <-]. constructor. }
  apply nextSelection_Some in Hnext as (_ & _ & Hfree & _).
  pose proof (fold_step_extend rec sel args Hfree (Selection.options sel)) as Hfold.
  unfold Action.simulate.
  match goal with |- context [fold_left _ _ ?l0] => specialize (Hfold l0 Hrec) end.
  simpl in Hfold. specialize (Hfold (Forall_nil_2 _)).
  repeat case_match; simpl; intros [= <-]; try done; by repeat constructor.
Qed.

Lemma getResolved_extend n : moves_extend (Action.getResolved n action prompt).
Proof.
  induction n as [|n IH]; [by intros sels args l|]. simpl. by apply frame_extend.
Qed.

Lemma frame_asks rec ks n :
  rec_ok ks n rec → moves_ask ks n rec →
  moves_ask ks (S n) (Action.frame rec action prompt).
Proof.
  intros Hrec Hask sels args l Hks Hm. unfold Action.frame.
  destruct (Action._nextSelection prompt sels args) as [[[ref sel]|] sels1] eqn:Hnext.
  2: { intros [= <-]. constructor. }
  pose proof (nextSelection_ref _ _ _ _ _ _ Hnext) as Href.
  apply nextSelection_Some in Hnext as (Hk1 & Hin & Hfree & _).
  rewrite Hks in Hk1, Hin, Href.
  pose proof (fold_step_asks rec ks n sel args Hrec Hin Hfree Hm (Selection.options sel))
    as Hfold.
  unfold Action.simulate.
  match goal with |- context [fold_left _ _ ?l0] =>
    specialize (Hfold l0 Hask eq_refl Hk1 (Forall_nil_2 _))
  end.
  assert (Hmove : ∀ ref', match ref', ref with
                          | Shared i, Shared j => i = j
                          | Own r, Own r0 => r_name r = r_name r0
                          | _, _ => False
                          end →
            asks ks {| pm_action := action; pm_args := args; pm_selection := ref' |}).
  { unfold asks. simpl. intros [i|r]; destruct ref as [j|r0]; try done.
    - intros ->. by exists (key (r_name sel)).
    - intros Hr. by rewrite Hr, Href. }
  assert (Hover : ∀ r opts, r_name (Selection.overrideOptions r opts).1 = r_name r).
  { intros r opts. unfold Selection.overrideOptions. by destruct (decide _). }
  repeat case_match; simpl; intros [= <-]; try done;
    apply Forall_singleton, Hmove; simplify_eq; try done.
Qed.

Lemma getResolved_asks ks n : moves_ask ks n (Action.getResolved n action prompt).
Proof.
  induction n as [|n IH]; [by intros sels args l|]. simpl.
  apply frame_asks; [apply getResolved_ok|done].
Qed.




End Subsumption.

(** ** The claims *)

(** Case analysis on the conditions of the conditionals of the goal. *)
Ltac split_ifs :=
  repeat match goal with |- context [if ?c then _ else _] => destruct c end.

Section Claims.

Import Examples.

(** C1 (the code departs from the claim). With [n] = 7 against a maximum of
    3, validation reports "Above maximum"; [_process] goes on with the whole
    record, finds every selection filled, runs the spy on it and returns no
    error: the invalid move is applied. *)
Theorem process_applies_move_with_invalid_argument :
  Action.validate_all (selections counters) seven = Returned (Some "Above maximum") ∧
  Action._process counters seven [] = (Returned None, [seven]).
Proof. split; vm_compute; reflexivity. Qed.

(** C4. With [expand] set on the choice between 'oil' and 'garbage',
    resolving without arguments yields exactly two pending moves, one per
    choice, both for the number selection; once 'oil' is supplied it yields
    exactly one pending move, for the number selection with [max] = 3. *)
Theorem expand_presents_the_number_selection_per_choice :
  shown_all (Action._getResolvedSelections (resources (Some true)) ∅) =
    Some [ ({["r" := str "oil"]}, Some (Some "n", number, None, Some 3, None, None));
           ({["r" := str "garbage"]}, Some (Some "n", number, None, Some 1, None, None)) ] ∧
  shown_all (Action._getResolvedSelections (resources (Some true)) {["r" := str "oil"]}) =
    Some [ ({["r" := str "oil"]}, Some (Some "n", number, None, Some 3, None, None)) ].
Proof. split; vm_compute; reflexivity. Qed.

(** C5, counterexample. The range from 1 to 101 holds 101 values, more than
    100, and yet the selection is not unbounded: its options are
    enumerated. *)
Lemma range_of_101_values_is_not_unbounded :
  r_type hundred_and_one = number ∧
  r_min hundred_and_one = Some 1 ∧ r_max hundred_and_one = Some 101 ∧
  100 < 101 - 1 + 1 ∧
  Selection.isUnbounded hundred_and_one = false ∧
  length (Selection.options hundred_and_one) = 101%nat.
Proof. repeat split; vm_compute; reflexivity. Qed.

(** C5, as amended. A selection is unbounded exactly when it is a number
    selection whose [max] is unset or exceeds its [min] (1 when unset) by
    more than 100, or a text or button selection. An unbounded selection has
    no options to enumerate and is returned as the single pending move,
    without simulation. A number selection that is not unbounded enumerates
    the integers from [min] (1 when unset) to [max], both included. *)
Theorem unbounded_selection_is_a_leaf (selection : ResolvedSelection) :
  (Selection.isUnbounded selection = true ↔
     (r_type selection = number ∧
        (r_max selection = None ∨
         ∃ hi, r_max selection = Some hi ∧ 100 < hi - default 1 (r_min selection))) ∨
     r_type selection = text ∨ r_type selection = button) ∧
  (Selection.isUnbounded selection = true → Selection.options selection = []) ∧
  (∀ St (a : Action St) args ref sels,
     Action._nextSelection (a_prompt a) (selections a) args = (Some (ref, selection), sels) →
     Selection.isUnbounded selection = true →
     Action._getResolvedSelections a args =
       (Some [{| pm_action := a_name a; pm_args := args; pm_selection := ref |}], sels)) ∧
  (r_type selection = number → Selection.isUnbounded selection = false →
     ∃ hi, r_max selection = Some hi ∧
           ∀ k, Single (VNum k) ∈ Selection.options selection ↔
                default 1 (r_min selection) ≤ k ≤ hi).
Proof.
  split; [apply isUnbounded_iff|]. split; [apply unbounded_options|]. split.
  - intros St a args ref sels Hnext Hub. by eapply resolved_leaf.
  - intros Hty Hub. destruct (options_number _ Hty Hub) as (hi & Hhi & ->).
    exists hi. split; [done|]. intros k. rewrite <- range_spec.
    rewrite !list_elem_of_fmap. split.
    + intros (k' & [= ->] & ?). by exists k'.
    + intros (k' & [= ->] & ?). by exists k'.
Qed.

Lemma unbounded_selection_is_a_leaf_witness :
  (∃ hi, r_max hundred_and_one = Some hi ∧
         ∀ k, Single (VNum k) ∈ Selection.options hundred_and_one ↔ 1 ≤ k ≤ hi) ∧
  ∃ ref sels,
    Action._getResolvedSelections
      (Action.enterText "guess" None None None (Action.action (St := unit) "Guess a word")) ∅ =
      (Some [{| pm_action := None; pm_args := ∅; pm_selection := ref |}], sels).
Proof.
  split.
  - refine (proj2 (proj2 (proj2 (unbounded_selection_is_a_leaf hundred_and_one))) _ _);
      reflexivity.
  - eexists _, _.
    refine (proj1 (proj2 (proj2 (unbounded_selection_is_a_leaf _))) unit
              (Action.enterText "guess" None None None (Action.action "Guess a word"))
              ∅ _ _ _ _); reflexivity.
Defined.

(** C6 (the code departs from the claim). With [n] = 2 the arguments are
    complete and valid. The spy runs; the behaviour registered after it
    throws the string 'boom', of which [catch] returns the [message], that
    is [undefined]: [_process] returns no error, although a behaviour threw
    and the one registered after it did not run. *)
Theorem thrown_string_is_reported_as_success :
  Action.validate_all (selections counters_shouting) two = Returned None ∧
  (Action._getResolvedSelections counters_shouting two).1 = Some [] ∧
  moves counters_shouting = [spy; shout; mark] ∧
  Action._process counters_shouting two [] = (Returned None, [two]).
Proof. vm_compute. repeat split; reflexivity. Qed.

(** X24. When every selection that is not skipped is filed in the record
    and every selection accepts its value, [_process] runs the behaviours
    one after the other in the order of registration, each once. If none
    throws it returns no error and the board is the result of all of them.
    If one throws, the later ones do not run and the board keeps what the
    earlier ones and the failing one wrote; the call returns the message of
    what was thrown when that is an [Error], returns no error when it is a
    value without a message, and throws a [TypeError] when it is [null] or
    [undefined]. *)
Theorem process_runs_behaviors_in_order {St} (a : Action St) args (st : St) :
  complete (selections a) args →
  valid (selections a) args →
  (all_return (moves a) args →
     Action._process a args st = (Returned None, apply_all (moves a) args st)) ∧
  (∀ pre move post e,
     moves a = pre ++ move :: post →
     all_return pre args →
     (move args (apply_all pre args st)).2 = Some e →
     Action._process a args st =
       (match e with
        | Error message => Returned (Some message)
        | Messageless => Returned None
        | Nullish => Thrown "TypeError"
        end, (move args (apply_all pre args st)).1)).
Proof.
  intros Hc Hv. pose proof (validate_all_valid _ _ Hv) as Hva.
  rewrite (process_complete _ _ _ _ Hva Hc). split.
  - intros Hall. by rewrite run_moves_all_return.
  - intros pre move post e Heq Hall Hthrow. rewrite Heq.
    by rewrite (run_moves_throw pre post move args st e).
Qed.

Lemma process_runs_behaviors_in_order_witness :
  Action._process counters_marked two [] =
    (Returned None, [two; <["done" := Single (VBool true)]> two]) ∧
  Action._process counters_failing two [] = (Returned (Some "boom"), [two]).
Proof.
  assert (Hc : complete (selections counters) two).
  { constructor; [right; left; vm_compute; by eexists|constructor]. }
  assert (Hv : valid (selections counters) two).
  { constructor; [vm_compute; reflexivity|constructor]. }
  split.
  - refine (proj1 (process_runs_behaviors_in_order counters_marked two [] Hc Hv) _).
    intros move st Hin. vm_compute in Hin.
    apply elem_of_cons in Hin as [->|Hin]; [reflexivity|].
    apply list_elem_of_singleton in Hin as ->. reflexivity.
  - refine (proj2 (process_runs_behaviors_in_order counters_failing two [] Hc Hv)
              [spy] boom [mark] (Error "boom") eq_refl _ eq_refl).
    intros move st Hin. apply list_elem_of_singleton in Hin as ->. reflexivity.
Defined.

(** C7 (the code departs from the claim). Of the choices 1, 2 and 3 only 1
    and 2 can be completed, 3 is pruned; the pending move still offers all
    three, because the narrowed copy that [overrideOptions] builds for a
    choice selection is dropped. On the board the same pruning does narrow
    the candidates to 1 and 2. *)
Theorem pruned_choice_is_still_offered :
  (Action._getResolvedSelections at_most_two {["a" := num 3]}).1 = None ∧
  shown_all (Action._getResolvedSelections at_most_two ∅) =
    Some [ (∅, Some (Some "a", choices, None, None,
                     Some (ChoiceList [VNum 1; VNum 2; VNum 3]), None)) ] ∧
  shown_all (Action._getResolvedSelections spaces_up_to_two ∅) =
    Some [ (∅, Some (Some "e", board, None, None, None, Some [1; 2]%nat)) ].
Proof. repeat split; vm_compute; reflexivity. Qed.

(** C8, counterexample. A single element supplied to a selection of one to
    two cards makes [validate] throw. *)
Lemma validate_throws_on_single_value_for_multi_select :
  Selection.validate cards (Some (Single (VElement 1%nat))) ∅ = Thrown "Required multi select".
Proof. vm_compute. reflexivity. Qed.

(** C8, as amended. [validate] returns an error string or no error, and
    throws in one case only: the selection is not skipped, is a board
    selection with candidates and with [min] or [max] set, and the value
    supplied is not an array; it then throws "Required multi select". *)
Theorem validate_throws_only_on_single_value_for_multi_select
        (this : Selection) (arg : option Argument) (previousArgs : Args) :
  let s := Selection.resolve this previousArgs in
  let single_for_multi :=
    r_skipIf s ≠ Some true ∧ r_type s = board ∧ is_Some (r_boardChoices s) ∧
    Selection.isMulti this = true ∧ Selection.is_array arg = false in
  match Selection.validate this arg previousArgs with
  | Thrown message => message = "Required multi select" ∧ single_for_multi
  | Returned _ => ¬ single_for_multi
  end.
Proof.
  intros s single_for_multi. subst single_for_multi. unfold Selection.validate.
  fold s. destruct (decide (r_skipIf s = Some true)) as [Hskip|Hskip].
  { intros [Hns _]. by apply Hns. }
  assert (Hscalar : ∀ x, ∃ e, Selection.validate_scalar s x = Returned e).
  { intros x. unfold Selection.validate_scalar. repeat case_match; eauto. }
  destruct (r_type s) eqn:Hty, (r_choices s) as [cs|] eqn:Hcs,
           (r_boardChoices s) as [bs|] eqn:Hbs.
  all: try (destruct (Hscalar arg) as [e ->]; intros (_ & Hboard & [? Hsome] & _);
            congruence).
  all: try (split_ifs; intros (_ & Hboard & _); congruence).
  all: destruct (Selection.isMulti this) eqn:Hmulti;
    [|split_ifs; intros (_ & _ & _ & ? & _); congruence].
  all: destruct arg as [[v|vs]|]; simpl;
    try (split; [reflexivity|repeat split; eauto]).
  all: destruct (Hscalar (Some (Multiple vs))) as [e ->];
    split_ifs; intros (_ & _ & _ & _ & ?); congruence.
Qed.

(** C9 (the code departs from the claim). Of the three allowed actions
    'sell' cannot be completed; two remain, so the player is asked to choose
    an action, and the choice offered lists all three, 'sell' included. *)
Theorem infeasible_action_is_still_offered :
  (Action._getResolvedSelections (Game.action declared "sell") ∅).1 = None ∧
  Game.getResolvedSelections declared turn None None =
    Some {| Game.r_step := Some "turn"; Game.r_prompt_of := Some "your move";
            Game.r_moves :=
              [Game.Offered "/" (Some "your move") ∅
                 [Game.action_choice (Some "your move") ["take"; "count"; "sell"]]] |}.
Proof. split; vm_compute; reflexivity. Qed.

(** C10. [inContextOfPlayer] hands [fn] the game with the context set to the
    player. When [fn] returns, its result is returned and the context is put
    back to what it was before the call, the rest of the game being as [fn]
    left it. When [fn] throws, the exception goes up with the game exactly
    as [fn] left it: nothing is put back, and the context is still the
    player if [fn] left it alone. *)
Theorem inContextOfPlayer_restores_only_on_return
        {P B T} (player : P) (fn : Game.state P B → Outcome T * Game.state P B)
        (g : Game.state P B) :
  let entered := {| Game.ctx_player := Some player; Game.rest := Game.rest g |} in
  (∀ results g', fn entered = (Returned results, g') →
     Game.inContextOfPlayer player fn g =
       (Returned results, {| Game.ctx_player := Game.ctx_player g; Game.rest := Game.rest g' |})) ∧
  (∀ e g', fn entered = (Thrown e, g') →
     Game.inContextOfPlayer player fn g = (Thrown e, g') ∧
     (Game.ctx_player g' = Game.ctx_player entered →
      Game.ctx_player (Game.inContextOfPlayer player fn g).2 = Some player)).
Proof.
  intros entered. unfold Game.inContextOfPlayer, Game.contextualizeBoardToPlayer.
  fold entered. split.
  - intros results g' ->. reflexivity.
  - intros e g' ->. split; [reflexivity|]. simpl. by intros ->.
Qed.

Lemma inContextOfPlayer_restores_only_on_return_witness :
  Game.inContextOfPlayer 1%nat passing {| Game.ctx_player := None; Game.rest := 0%nat |} =
    (Returned 0%nat, {| Game.ctx_player := None; Game.rest := 1%nat |}) ∧
  Game.inContextOfPlayer 1%nat failing {| Game.ctx_player := None; Game.rest := 0%nat |} =
    (Thrown "No such action", {| Game.ctx_player := Some 1%nat; Game.rest := 1%nat |}).
Proof.
  split.
  - exact (proj1 (inContextOfPlayer_restores_only_on_return 1%nat passing
                    {| Game.ctx_player := None; Game.rest := 0%nat |}) _ _ eq_refl).
  - exact (proj1 (proj2 (inContextOfPlayer_restores_only_on_return 1%nat failing
                    {| Game.ctx_player := None; Game.rest := 0%nat |}) _ _ eq_refl)).
Defined.

End Claims.

(** ** The claims on the recursion *)

Section RecursionClaims.

Context {St : Type}.
Implicit Types (a : Action St) (args : Args).

Lemma all_pruned_branches a k args sels opts :
  keys sels = keys (selections a) → k ∈ keys (selections a) → args !! k = None →
  all_pruned (Action.getResolved (length (selections a)) (a_name a) (a_prompt a))
             k args sels opts ↔
  branches_infeasible a k args sels opts.
Proof.
  intros Hks Hin Hfree. revert sels Hks.
  induction opts as [|o opts IH]; intros sels Hks; simpl; [done|].
  assert (Hm : (missing (keys sels) (<[k := o]> args) < length (selections a))%nat).
  { rewrite Hks. pose proof (missing_insert _ _ o args Hin Hfree).
    pose proof (missing_le (keys (selections a)) args).
    unfold keys in *. rewrite length_fmap in *. lia. }
  rewrite (nested_is_resolution a sels _ Hks Hm).
  rewrite resolved_None, resolved_of_resolution. simpl.
  apply and_iff_compat_l, IH.
  rewrite <- (nested_is_resolution a sels _ Hks Hm).
  apply (getResolved_ok (a_name a) (a_prompt a) (keys (selections a))); [done|].
  by rewrite <- Hks.
Qed.

Lemma frame_not_empty rec action prompt sels args ref selection sels' :
  Action._nextSelection prompt sels args = (Some (ref, selection), sels') →
  (Action.frame rec action prompt sels args).1 ≠ Moves [].
Proof.
  intros Hnext. unfold Action.frame. rewrite Hnext.
  destruct (negb _); [done|]. destruct (Selection.isUnbounded _); [done|].
  destruct (Action.exhausted _); [done|]. destruct (bool_decide (_ = [])); [done|].
  destruct (bool_decide (Action.resolvedSelections _ = [])) eqn:Hrs; [done|].
  apply bool_decide_eq_false in Hrs.
  repeat case_match; simpl; congruence.
Qed.

Lemma simulate_nested a selection args sels :
  keys sels = keys (selections a) →
  key (r_name selection) ∈ keys (selections a) →
  args !! key (r_name selection) = None →
  Action.simulate (Action.getResolved (length (selections a)) (a_name a) (a_prompt a))
                  selection args sels =
  Action.simulate (nested a) selection args sels.
Proof.
  intros Hks Hin Hfree. unfold Action.simulate.
  apply (fold_step_ext _ (keys (selections a)) (length (selections a)));
    try done.
  - apply getResolved_ok.
  - pose proof (missing_le (keys (selections a)) args).
    unfold keys in *. rewrite length_fmap in *. lia.
  - intros sels' args' Hks' Hm'. apply nested_is_resolution; [done|by rewrite Hks'].
Qed.

Lemma simulate_not_exhausted a selection args sels :
  keys sels = keys (selections a) →
  key (r_name selection) ∈ keys (selections a) →
  args !! key (r_name selection) = None →
  Action.exhausted (Action.simulate (nested a) selection args sels) = false.
Proof.
  intros Hks Hin Hfree. rewrite <- simulate_nested by done. unfold Action.simulate.
  eapply (fold_step_ok _ (keys (selections a)) (length (selections a))); try done.
  - apply getResolved_ok.
  - pose proof (missing_le (keys (selections a)) args).
    unfold keys in *. rewrite length_fmap in *. lia.
Qed.



(** C2 (the code departs from the claim). The one selection of the action
    is named 'constructor' and is not skipped; the record is empty, so the
    selection has no value. [_nextSelection] tests ['constructor' in args],
    which finds the property that every plain object inherits, and returns
    no selection: [_getResolvedSelections] returns the empty list although
    a selection that is not skipped has no value, and [_process] goes on to
    run the behaviour. *)
Theorem selection_named_constructor_is_never_asked :
  name <$> selections Examples.named_constructor = [Some "constructor"] ∧
  (∀ s, s ∈ selections Examples.named_constructor →
        r_skipIf (Selection.resolve s ∅) ≠ Some true) ∧
  (∅ : Args) !! "constructor" = None ∧
  (Action._nextSelection "pick a letter" (selections Examples.named_constructor) ∅).1 = None ∧
  (Action._getResolvedSelections Examples.named_constructor ∅).1 = Some [] ∧
  Action._process Examples.named_constructor ∅ [] = (Returned None, [∅]).
Proof.
  split; [reflexivity|]. split.
  - intros s Hin. vm_compute in Hin. apply list_elem_of_singleton in Hin as ->. discriminate.
  - vm_compute. repeat split; reflexivity.
Qed.

(** X23. [_getResolvedSelections] comes to one of three things. It returns
    the empty list exactly when the name of every selection that is not
    skipped is found in the record as [in] finds it, as a key of the
    record or as a name that every plain object inherits. Otherwise there
    is a next selection, and it returns [undefined] exactly when that
    selection is not possible (an empty list of choices, a minimum above
    the maximum) or, being bounded, has every one of its options come back
    [undefined] from the recursive call; in every other case the list it
    returns is not empty. *)
Theorem resolution_distinguishes_three_outcomes a args :
  ((Action._getResolvedSelections a args).1 = Some [] ↔ complete (selections a) args) ∧
  (∀ ref selection sels,
     Action._nextSelection (a_prompt a) (selections a) args = (Some (ref, selection), sels) →
     ((Action._getResolvedSelections a args).1 = None ↔
        Selection.isPossible selection = false ∨
        (Selection.isUnbounded selection = false ∧
         branches_infeasible a (key (r_name selection)) args sels
                             (Selection.options selection))) ∧
     ((Action._getResolvedSelections a args).1 ≠ None →
        ∃ m l, (Action._getResolvedSelections a args).1 = Some (m :: l))) ∧
  (∀ cs selection, r_type selection = choices → r_choices selection = Some cs →
     (Selection.isPossible selection = false ↔ choice_values cs = [])) ∧
  (∀ hi selection, r_type selection = number → r_max selection = Some hi →
     (Selection.isPossible selection = false ↔ hi < default 1 (r_min selection))).
Proof.
  split; [|split; [|split]].
  - split; [|intros Hc; by rewrite resolved_complete].
    rewrite resolved_Some, resolution_unfold. intros Hres.
    destruct (Action._nextSelection (a_prompt a) (selections a) args)
      as [[[ref sel]|] sels] eqn:Hnext.
    + by eapply frame_not_empty in Hnext.
    + by apply nextSelection_None in Hnext as [? _].
  - intros ref sel sels Hnext.
    assert (Hne : (resolution a args).1 ≠ Moves []).
    { rewrite resolution_unfold. by eapply frame_not_empty. }
    split.
    2: { rewrite resolved_of_resolution. simpl.
         destruct (resolution a args).1 as [| |[|m l]]; naive_solver. }
    rewrite resolved_None, resolution_unfold. unfold Action.frame. rewrite Hnext.
    destruct (nextSelection_Some _ _ _ _ _ _ Hnext) as (Hks & Hin & Hfree & _).
    destruct (Selection.isPossible sel); simpl; [|by split; [left|]].
    destruct (Selection.isUnbounded sel); simpl; [by split; [|intros [?|[? _]]]|].
    assert (Hm : (missing (keys (selections a)) args < S (length (selections a)))%nat).
    { pose proof (missing_le (keys (selections a)) args).
      unfold keys in *. rewrite length_fmap in *. lia. }
    pose proof (getResolved_ok (a_name a) (a_prompt a) (keys (selections a))
                  (length (selections a))) as Hrec.
    unfold Action.simulate.
    match goal with |- context [fold_left _ _ ?l0] =>
      destruct (fold_step_ok _ _ _ sel args Hrec Hin Hfree Hm (Selection.options sel) l0)
        as [Hex _]; [done|done|];
      pose proof (fold_step_survivors _ _ _ sel args Hrec Hin Hfree Hm
                    (Selection.options sel) l0 eq_refl Hks) as Hsurv
    end.
    rewrite Hex. simpl in Hsurv.
    rewrite (all_pruned_branches a _ args sels _ Hks Hin Hfree) in Hsurv.
    destruct (bool_decide (_ = [])) eqn:Hnil.
    + apply bool_decide_eq_true in Hnil. split; [|done].
      intros _. right. split; [done|]. by apply Hsurv.
    + apply bool_decide_eq_false in Hnil.
      split; [repeat case_match; done|].
      intros [?|[_ Hb]]; [done|]. destruct Hnil. apply Hsurv. by split.
  - intros cs sel Hty Hcs. unfold Selection.isPossible. rewrite Hty, Hcs.
    rewrite bool_decide_eq_false. destruct (choice_values cs); simpl; split; try done; lia.
  - intros hi sel Hty Hmax. unfold Selection.isPossible. rewrite Hty, Hmax.
    destruct (r_choices sel); rewrite Z.leb_gt; done.
Qed.



End RecursionClaims.


Lemma resolution_distinguishes_three_outcomes_witness :
  (Action._getResolvedSelections Examples.nothing_to_choose ∅).1 = None ∧
  (Action._getResolvedSelections Examples.empty_range ∅).1 = None ∧
  (Action._getResolvedSelections Examples.counters Examples.two).1 = Some [].
Proof.
  split; [|split].
  - edestruct (proj1 (proj2 (resolution_distinguishes_three_outcomes
                               Examples.nothing_to_choose ∅))) as [Hiff _]; [reflexivity|].
    apply Hiff. left. reflexivity.
  - edestruct (proj1 (proj2 (resolution_distinguishes_three_outcomes
                               Examples.empty_range ∅))) as [Hiff _]; [reflexivity|].
    apply Hiff. left. reflexivity.
  - apply (proj1 (resolution_distinguishes_three_outcomes Examples.counters Examples.two)).
    constructor; [right; left; vm_compute; by eexists|constructor].
Defined.

(** ** The cases of the test suite *)

Section TestSuite.

Import Examples.

(** 'tests choices' and 'tests bounds': no completion for an empty list of
    choices or a minimum above the maximum. *)
Example no_completion :
  (Action._getResolvedSelections nothing_to_choose ∅).1 = None ∧
  (Action._getResolvedSelections empty_range ∅).1 = None.
Proof. split; vm_compute; reflexivity. Qed.

(** 'shows first selection': without [expand] the choice itself is asked. *)
Example shows_first_selection :
  shown_all (Action._getResolvedSelections (resources None) ∅) =
    Some [ (∅, Some (Some "r", choices, None, None,
                     Some (ChoiceList [VStr "oil"; VStr "garbage"]), None)) ].
Proof. vm_compute. reflexivity. Qed.

(** 'completes': with both arguments nothing is left to ask. *)
Example completes :
  (Action._getResolvedSelections (resources None)
     (<["n" := num 2]> {["r" := str "oil"]})).1 = Some [].
Proof. vm_compute. reflexivity. Qed.

(** 'skips': a single choice followed by a number goes straight to the
    number. *)
Example skips :
  shown_all (Action._getResolvedSelections one_choice_then_number ∅) =
    Some [ ({["c" := num 1]}, Some (Some "n", number, None, Some 3, None, None)) ].
Proof. vm_compute. reflexivity. Qed.

End TestSuite.

(** ** The dispatch over actions *)

Section DispatchProperties.

Context {St : Type}.
Variable declared : string → Action St.

Lemma survey_infeasible prompt expand ns possibleActions resolvedSelections :
  Forall (λ n, (Action._getResolvedSelections (Game.action declared n) ∅).1 = None) ns →
  Game.survey declared prompt expand ns possibleActions resolvedSelections =
  (possibleActions, resolvedSelections).
Proof.
  induction 1 as [|n ns Hn _ IH]; simpl; [done|].
  destruct (Action._getResolvedSelections (Game.action declared n) ∅) as [[sub|] sels];
    simpl in *; done.
Qed.

(** X13. The two parts of the dispatch that are as the specification has them:
    with no action that can be completed the answer is [undefined]; with
    [skipIfOnlyOne] and exactly one action that can be completed, the answer
    is that action's pending moves (or, under [expand] when it has none, the
    button that stands for it), with no step to choose an action. *)
Lemma dispatch_without_choice_of_action allowed args :
  (Forall (λ n, (Action._getResolvedSelections (Game.action declared n) ∅).1 = None)
          (Game.actions allowed) →
   Game.getResolvedSelections declared allowed None args = None) ∧
  (∀ pre n post submoves sels,
     Game.actions allowed = pre ++ n :: post →
     Forall (λ n, (Action._getResolvedSelections (Game.action declared n) ∅).1 = None)
            (pre ++ post) →
     Action._getResolvedSelections (Game.action declared n) ∅ = (Some submoves, sels) →
     Game.aa_skipIfOnlyOne allowed = true →
     Game.getResolvedSelections declared allowed None args =
       Some {| Game.r_step := Game.step allowed;
               Game.r_prompt_of := Game.aa_prompt allowed;
               Game.r_moves :=
                 if Game.aa_expand allowed && bool_decide (submoves = [])
                 then [Game.Offered n (Game.aa_prompt allowed) ∅
                         [Game.action_button (a_prompt (Game.action declared n)) n]]
                 else Game.Submove sels <$> submoves |}).
Proof.
  split.
  - intros Hall. unfold Game.getResolvedSelections.
    destruct (bool_decide (Game.actions allowed = [])); [done|]. simpl.
    by rewrite survey_infeasible.
  - intros pre n post submoves sels Hact Hall Hn Hskip.
    apply Forall_app in Hall as [Hpre Hpost].
    unfold Game.getResolvedSelections. rewrite Hact.
    rewrite bool_decide_eq_false_2 by (by destruct pre). simpl.
    assert (Hsurvey : ∀ pa rs,
      Game.survey declared (Game.aa_prompt allowed) (Game.aa_expand allowed)
                  (pre ++ n :: post) pa rs =
      (pa ++ [n],
       rs ++ if Game.aa_expand allowed && bool_decide (submoves = [])
             then [Game.Offered n (Game.aa_prompt allowed) ∅
                     [Game.action_button (a_prompt (Game.action declared n)) n]]
             else Game.Submove sels <$> submoves)).
    { clear Hact. induction Hpre as [|n0 pre Hn0 _ IH]; intros pa rs; simpl.
      - rewrite Hn. by rewrite survey_infeasible.
      - destruct (Action._getResolvedSelections (Game.action declared n0) ∅)
          as [[sub|] sels0]; simpl in *; [done|]. apply IH. }
    rewrite Hsurvey. simpl. by rewrite Hskip.
Qed.

End DispatchProperties.

(** ** Selection: forced values, enumerated options and validation *)

Section OptionsProperties.

Import Selection.

Lemma eval_is_Some {T} args (f : option (Field T)) : is_Some (eval args f) ↔ is_Some f.
Proof. destruct f as [[v|g]|]; simpl; split; intros H; try done; by eexists. Qed.

Lemma isMulti_resolve s args : isMultiR (resolve s args) = isMulti s.
Proof.
  unfold isMultiR, isMulti. simpl.
  by rewrite !(bool_decide_ext _ _ (eval_is_Some args _)).
Qed.

Lemma new_constructed n d args : constructed (resolve (new n d) args).
Proof.
  unfold constructed, new, isMultiR.
  destruct (d_payload d); simpl; split; try done; by intros [? ?].
Qed.

Lemma sublists_spec {A} (c l : list A) :
  c ∈ Utils.sublists l → (∀ x, x ∈ c → x ∈ l) ∧ (length c ≤ length l)%nat.
Proof.
  revert c. induction l as [|x l IH]; intros c; simpl.
  - intros ->%list_elem_of_singleton. split; [done|simpl; lia].
  - intros [Hc|Hc]%elem_of_app.
    + apply list_elem_of_fmap in Hc as (c' & -> & Hc'). destruct (IH _ Hc') as [Hin Hlen].
      split; [|simpl; lia]. intros y [->|Hy]%elem_of_cons; [left|right; auto].
    + destruct (IH _ Hc) as [Hin Hlen]. split; [|simpl; lia]. intros y Hy. right. auto.
Qed.

Lemma combinations_spec {A} (c l : list A) lo hi :
  c ∈ Utils.combinations l lo hi →
  (∀ x, x ∈ c → x ∈ l) ∧ (length c ≤ length l)%nat ∧
  lo ≤ Z.of_nat (length c) ∧ match hi with Some h => Z.of_nat (length c) ≤ h | None => True end.
Proof.
  unfold Utils.combinations. rewrite list_elem_of_In, filter_In, <- list_elem_of_In.
  intros [Hc Hb]. apply andb_prop in Hb as [Hlo Hhi]. apply Z.leb_le in Hlo.
  destruct (sublists_spec _ _ Hc) as [Hin Hlen]. repeat split; try done.
  destruct hi; [by apply Z.leb_le|done].
Qed.

Lemma includes_elem {A} `{EqDecision A} (xs : list A) x : includes xs x = true ↔ x ∈ xs.
Proof. unfold includes. by rewrite bool_decide_eq_true. Qed.

Lemma existsb_outside (xs vs : list SingleArgument) :
  (∀ x, x ∈ vs → x ∈ xs) → existsb (λ a, negb (includes xs a)) vs = false.
Proof.
  intros H. induction vs as [|v vs IH]; simpl; [done|].
  rewrite (proj2 (includes_elem xs v)) by (apply H; left). simpl.
  apply IH. intros x Hx. apply H. by right.
Qed.

Lemma option_accepted (s : Selection) (args : Args) (o : Argument) :
  constructed (resolve s args) →
  o ∈ options (resolve s args) →
  validate s (Some o) args = Returned None.
Proof.
  intros [Hb Hc]. unfold validate. cbv zeta. rewrite <- (isMulti_resolve s args).
  revert Hb Hc. generalize (resolve s args). intros r Hb Hc Hin.
  destruct (decide (r_skipIf r = Some true)); [done|].
  unfold options in Hin.
  destruct (isUnbounded r) eqn:Hub; [by apply elem_of_nil in Hin|].
  destruct (decide (r_type r = number)) as [Hn|Hn].
  - rewrite Hn.
    destruct (r_max r) as [hi|] eqn:Hmax; [|by apply elem_of_nil in Hin].
    apply list_elem_of_fmap in Hin as (k & -> & Hk).
    apply (list_elem_of_fmap_2 VNum) in Hk. apply range_spec in Hk.
    unfold validate_scalar. rewrite Hn, Hmax. simpl.
    destruct (r_min r) as [lo|]; simpl in *.
    + rewrite (proj2 (Z.ltb_ge k lo)) by lia. by rewrite (proj2 (Z.ltb_ge hi k)) by lia.
    + by rewrite (proj2 (Z.ltb_ge hi k)) by lia.
  - unfold isUnbounded in Hub. unfold validate_scalar.
    destruct (r_type r) eqn:Hty; simpl in Hub; try done.
    + destruct (r_boardChoices r) as [bs|] eqn:Hbs; simpl in Hin; [|by destruct (r_choices r)].
      destruct (isMultiR r) eqn:Hm.
      * apply list_elem_of_fmap in Hin as (c & -> & Hin).
        apply combinations_spec in Hin as (Hsub & _ & Hlo & Hhi).
        rewrite existsb_outside by done.
        destruct (r_min r) as [lo|], (r_max r) as [hi|]; simpl in *;
          rewrite ?(proj2 (Z.ltb_ge _ _)) by lia; by destruct (r_choices r).
      * apply list_elem_of_fmap in Hin as (v & -> & Hin). simpl.
        rewrite (proj2 (includes_elem _ _)) by done. by destruct (r_choices r).
    + rewrite (Hc eq_refl) in Hin.
      destruct (r_boardChoices r) as [bs|] eqn:Hbs; [by specialize (Hb (mk_is_Some _ _ eq_refl))|].
      destruct (r_choices r) as [cs|]; simpl in Hin; [|by apply elem_of_nil in Hin].
      apply list_elem_of_fmap in Hin as (v & -> & Hin). simpl.
      by rewrite (proj2 (includes_elem _ _)) by done.
Qed.

Lemma filter_exactly_cons {A} (x : A) (L : list (list A)) n :
  List.filter (exactly (S n)) ((x ::.) <$> L) = (x ::.) <$> List.filter (exactly n) L.
Proof.
  induction L as [|c L IH]; [done|].
  rewrite fmap_cons. cbn [List.filter].
  replace (exactly (S n) (x :: c)) with (exactly n c).
  - destruct (exactly n c); rewrite IH; done.
  - unfold exactly. simpl length.
    destruct (Z.leb_spec (Z.of_nat n) (Z.of_nat (length c))),
             (Z.leb_spec (Z.of_nat (length c)) (Z.of_nat n)),
             (Z.leb_spec (Z.of_nat (S n)) (Z.of_nat (S (length c)))),
             (Z.leb_spec (Z.of_nat (S (length c))) (Z.of_nat (S n))); simpl; try done; lia.
Qed.

Lemma filter_exactly_short {A} (L : list (list A)) n :
  (∀ c, c ∈ L → (length c < n)%nat) → List.filter (exactly n) L = [].
Proof.
  induction L as [|c L IH]; simpl; intros H; [done|].
  rewrite IH by (intros; apply H; by right).
  specialize (H c (list_elem_of_here _ _)). unfold exactly.
  rewrite (proj2 (Z.leb_gt _ _)) by lia. done.
Qed.

Lemma combinations_all {A} (l : list A) :
  Utils.combinations l (Z.of_nat (length l)) (Some (Z.of_nat (length l))) = [l].
Proof.
  unfold Utils.combinations. change (List.filter (exactly (length l)) (Utils.sublists l) = [l]).
  induction l as [|x l IH]; [done|].
  simpl Utils.sublists. simpl length. rewrite List.filter_app, filter_exactly_cons, IH.
  rewrite filter_exactly_short; [done|].
  intros c Hc%sublists_spec. lia.
Qed.

Lemma forced_options (r : ResolvedSelection) v :
  constructed r → isForced r = Some v → r_type r ≠ button → options r = [v].
Proof.
  intros [Hb Hc] Hf Hty. unfold isForced in Hf. cbv zeta in Hf.
  destruct (r_skipIfOnlyOne r); simpl in Hf; [|done].
  rewrite bool_decide_eq_false_2 in Hf by done.
  destruct (r_boardChoices r) as [bs|] eqn:Hbs; simpl in Hf.
  - assert (Hboard : r_type r = board) by (apply Hb; by eexists).
    unfold options, isUnbounded. rewrite Hbs, Hboard. simpl.
    destruct (bool_decide (Some (length bs) = Some 1%nat) && negb (isMultiR r)) eqn:H1.
    + apply andb_prop in H1 as [Hlen%bool_decide_eq_true Hm%negb_true_iff].
      rewrite Hm. destruct bs as [|e [|? ?]]; simplify_eq/=. done.
    + destruct (bool_decide (Some (Z.of_nat (length bs)) = r_min r) &&
                bool_decide (r_min r = r_max r)) eqn:H2.
      * apply andb_prop in H2 as [Hmin%bool_decide_eq_true Hmax%bool_decide_eq_true].
        injection Hf as <-. unfold isMultiR. rewrite <- Hmax, <- Hmin. simpl.
        rewrite <- (length_fmap VElement bs). by rewrite combinations_all.
      * rewrite Hboard in Hf. simpl in Hf. done.
  - destruct (bool_decide (r_type r = number) && bool_decide (is_Some (r_min r)) &&
              bool_decide (r_min r = r_max r)) eqn:H3.
    + apply andb_prop in H3 as [[Hn%bool_decide_eq_true [m Hmin]%bool_decide_eq_true]%andb_prop
                                  Hmax%bool_decide_eq_true].
      rewrite Hmin in Hf. injection Hf as <-.
      unfold options, isUnbounded. rewrite Hn, <- Hmax, Hmin. simpl.
      rewrite Z.sub_diag. simpl. unfold Utils.range.
      replace (m - m + 1) with 1 by lia. simpl. by rewrite Z.add_0_r.
    + destruct (r_type r) eqn:Hty'; try done.
      destruct (r_choices r) as [cs|] eqn:Hcs; [|done].
      case_bool_decide as Hlen; [|done].
      unfold options, isUnbounded. rewrite Hty', Hbs, Hcs, (Hc eq_refl). simpl.
      destruct (choice_values cs) as [|c [|? ?]]; simplify_eq/=. done.
Qed.

Lemma forced_accepted (s : Selection) (args : Args) (v : Argument) :
  constructed (resolve s args) → isForced (resolve s args) = Some v →
  validate s (Some v) args = Returned None.
Proof.
  intros Hc Hf. destruct (decide (r_type (resolve s args) = button)) as [Hty|Hty].
  - unfold validate. cbv zeta. destruct (decide _); [done|].
    simpl in Hty. simpl r_type. rewrite Hty. unfold validate_scalar. simpl r_type. by rewrite Hty.
  - apply option_accepted; [done|].
    rewrite (forced_options _ _ Hc Hf Hty). left.
Qed.

Lemma filter_none {A} (f : A → bool) (L : list A) :
  (∀ c, c ∈ L → f c = false) → List.filter f L = [].
Proof.
  induction L as [|c L IH]; intros H; [done|]. cbn [List.filter].
  rewrite (H c) by left. apply IH. intros; apply H; by right.
Qed.

Lemma combinations_none {A} (l : list A) lo hi :
  match hi with Some h => h < lo | None => False end ∨ Z.of_nat (length l) < lo →
  Utils.combinations l lo hi = [].
Proof.
  intros H. apply filter_none. intros c [_ Hlen]%sublists_spec.
  destruct (Z.leb_spec lo (Z.of_nat (length c))); [|done]. simpl.
  destruct H as [H|H]; [|lia]. destruct hi as [h|]; [|done]. apply Z.leb_gt. lia.
Qed.

(** X3. A selection as the constructor builds it that [isPossible()]
    rejects has no option: the early [undefined] of the resolution never
    discards a selection that [options()] would give a value. *)
Theorem impossible_selection_has_no_option (r : ResolvedSelection) :
  constructed r → isPossible r = false → options r = [].
Proof.
  intros [Hb Hc] Hp. unfold isPossible in Hp. unfold options, isUnbounded.
  destruct (r_type r) eqn:Hty; simpl in *.
  - destruct (r_boardChoices r) as [bs|] eqn:Hbs; [|done]. simpl.
    destruct (isMultiR r) eqn:Hm.
    + rewrite combinations_none; [done|]. rewrite length_fmap.
      apply andb_false_iff in Hp as [Hp|Hp].
      * left. destruct (r_max r); [by apply Z.leb_gt in Hp|done].
      * right. by apply Z.leb_gt in Hp.
    + unfold isMultiR in Hm. apply orb_false_elim in Hm as [Hlo%bool_decide_eq_false Hhi%bool_decide_eq_false].
      destruct (r_min r); [by destruct Hlo|]. destruct (r_max r); [by destruct Hhi|].
      simpl in Hp. destruct bs; [done|]. simpl in Hp. apply Z.leb_gt in Hp. lia.
  - destruct (r_boardChoices r) as [bs|] eqn:Hbs; [by specialize (Hb (mk_is_Some _ _ eq_refl))|].
    destruct (r_choices r) as [cs|]; [|done]. rewrite (Hc eq_refl). simpl.
    apply bool_decide_eq_false in Hp. destruct (choice_values cs); [done|simpl in Hp; lia].
  - done.
  - destruct (r_max r) as [hi|]; [|done]. apply Z.leb_gt in Hp.
    rewrite (proj2 (Z.ltb_ge _ _)) by lia. unfold Utils.range.
    replace (Z.to_nat (hi - default 1 (r_min r) + 1)) with 0%nat by lia. done.
  - done.
Qed.

(** X1. Every value that [options()] enumerates for a selection as the
    constructor builds it is accepted by [validate] under the same earlier
    arguments: a number of the range, a choice, a candidate element, or a
    combination of candidates of an allowed size. *)
Theorem enumerated_option_is_accepted (s : Selection) (args : Args) (o : Argument) :
  constructed (resolve s args) →
  o ∈ options (resolve s args) →
  validate s (Some o) args = Returned None.
Proof. apply option_accepted. Qed.

Lemma enumerated_option_is_accepted_witness :
  validate Examples.cards (Some (Multiple [VElement 1%nat; VElement 3%nat])) ∅ = Returned None.
Proof.
  apply enumerated_option_is_accepted.
  - split; [intros _; reflexivity|intros H; discriminate H].
  - vm_compute. right. left.
Defined.

(** X2. The value [isForced()] reports for a selection as the constructor
    builds it is accepted by [validate], and unless the selection is a
    button it is the one and only value [options()] enumerates. *)
Theorem forced_value_is_the_only_option (s : Selection) (args : Args) (v : Argument) :
  constructed (resolve s args) →
  isForced (resolve s args) = Some v →
  validate s (Some v) args = Returned None ∧
  (type s ≠ button → options (resolve s args) = [v]).
Proof.
  intros Hc Hf. split; [by apply forced_accepted|].
  intros Hty. by apply forced_options.
Qed.

Lemma forced_value_is_the_only_option_witness :
  validate Examples.both_cards (Some (Multiple [VElement 1%nat; VElement 2%nat])) ∅ =
    Returned None ∧
  (type Examples.both_cards ≠ button →
   options (resolve Examples.both_cards ∅) = [Multiple [VElement 1%nat; VElement 2%nat]]).
Proof.
  apply forced_value_is_the_only_option.
  - split; [intros _; reflexivity|intros H; discriminate H].
  - reflexivity.
Defined.

Lemma impossible_selection_has_no_option_witness :
  options (resolve Examples.too_few_cards ∅) = [].
Proof.
  apply impossible_selection_has_no_option.
  - split; [intros _; reflexivity|intros H; discriminate H].
  - reflexivity.
Defined.

End OptionsProperties.

(** ** Action: the next selection and its prompt *)

Section NextSelection.

Lemma scan_decompose i0 rest p args i s selection p' :
  Action.scan i0 rest p args = Some (i, s, selection, p') →
  ∃ pre post, rest = pre ++ s :: post ∧ i = (i0 + length pre)%nat ∧
    complete pre args ∧ selection = Selection.resolve s args ∧
    r_skipIf selection ≠ Some true ∧ ¬ has args (key (name s)) ∧
    p' = default (prompt_after p pre args) (r_prompt selection).
Proof.
  revert i0 p. induction rest as [|s0 rest IH]; intros i0 p; [done|].
  rewrite scan_cons. repeat case_decide.
  - intros Hs. destruct (IH _ _ Hs) as (pre & post & -> & -> & Hc & ? & ? & ? & ->).
    exists (s0 :: pre), post. simpl. rewrite decide_True by done.
    split_and!; try done; try lia. constructor; [by left|done].
  - intros Hs. destruct (IH _ _ Hs) as (pre & post & -> & -> & Hc & ? & ? & ? & ->).
    exists (s0 :: pre), post. simpl. rewrite decide_False by done.
    split_and!; try done; try lia. constructor; [by right|done].
  - intros [= <- <- <- <-]. exists [], rest. simpl.
    split_and!; try done; try lia. constructor.
Qed.

Lemma prompt_after_silent p pre args :
  Forall (silent args) pre → prompt_after p pre args = p.
Proof.
  revert p. induction pre as [|s pre IH]; intros p; [done|].
  inversion 1 as [|? ? Hs Hpre]; subst. cbn [prompt_after]. cbv zeta. rewrite IH by done.
  destruct (decide _); [done|]. destruct Hs as [?| ->]; done.
Qed.

Lemma prompt_after_app p pre1 pre2 args :
  prompt_after p (pre1 ++ pre2) args = prompt_after (prompt_after p pre1 args) pre2 args.
Proof. revert p. induction pre1 as [|s pre1 IH]; intros p; simpl; [done|]. by rewrite IH. Qed.

Lemma scan_app i0 pre s post p args :
  complete pre args →
  r_skipIf (Selection.resolve s args) ≠ Some true → ¬ has args (key (name s)) →
  Action.scan i0 (pre ++ s :: post) p args =
  Some ((i0 + length pre)%nat, s, Selection.resolve s args,
        default (prompt_after p pre args) (r_prompt (Selection.resolve s args))).
Proof.
  intros Hc Hskip Hfree. revert i0 p.
  induction Hc as [|s0 pre Hs0 _ IH]; intros i0 p.
  - simpl app. rewrite scan_cons, decide_False by done.
    rewrite (decide_False (P := has args (key (name s)))) by done.
    simpl. do 4 f_equal. lia.
  - simpl app. rewrite scan_cons. cbn [prompt_after]. cbv zeta.
    destruct (decide (r_skipIf (Selection.resolve s0 args) = Some true)) as [Hsk|Hsk].
    + rewrite IH. simpl. do 4 f_equal. lia.
    + destruct Hs0 as [?|Hv]; [done|]. rewrite decide_True by done.
      rewrite IH. simpl. do 4 f_equal. lia.
Qed.

Lemma resolve_isResolved s args args' :
  Selection.isResolved s = true → Selection.resolve s args = Selection.resolve s args'.
Proof.
  unfold Selection.isResolved, Selection.resolve. intros H.
  repeat (apply andb_prop in H as [H ?]).
  destruct s as [n ty [[?|?]|] ? [[?|?]|] ? [[?|?]|] [[?|?]|] [[?|?]|] [[?|?]|] [[?|?]|] ? ?];
    simpl in *; done.
Qed.

Lemma resolve_write_prompt q s args :
  Selection.resolve (Action.write_prompt q s) args =
  Action.r_write_prompt q (Selection.resolve s args).
Proof. reflexivity. Qed.

Lemma nextSelection_deref p sels args ref sel sels' :
  Action._nextSelection p sels args = (Some (ref, sel), sels') →
  Action.deref sels' ref = Some sel.
Proof.
  unfold Action._nextSelection.
  destruct (Action.scan 0 sels p args) as [[[[i s] sel0] p']|] eqn:Hscan; [|done].
  destruct (scan_Some _ _ _ _ _ _ _ _ Hscan) as (j & -> & Hj & -> & _ & _).
  destruct (decide (p' = "")), (Selection.isResolved s) eqn:Hres;
    intros [= <- <- <-]; simpl; try done.
  - rewrite Hj. simpl. f_equal. by apply resolve_isResolved.
  - rewrite list_lookup_alter, Hj, decide_True by done. simpl. f_equal.
    rewrite resolve_write_prompt. f_equal. by apply resolve_isResolved.
Qed.

Lemma next_is_first_open p sels args ref sel sels' :
  Action._nextSelection p sels args = (Some (ref, sel), sels') →
  ∃ pre s post, sels = pre ++ s :: post ∧ complete pre args ∧
    r_skipIf (Selection.resolve s args) ≠ Some true ∧ ¬ has args (key (name s)) ∧
    (sel = Selection.resolve s args ∨ ∃ q, sel = Action.r_write_prompt q (Selection.resolve s args)) ∧
    ref = (if Selection.isResolved s then Shared (length pre) else Own sel).
Proof.
  unfold Action._nextSelection.
  destruct (Action.scan 0 sels p args) as [[[[i s] sel0] p']|] eqn:Hscan; [|done].
  destruct (scan_decompose _ _ _ _ _ _ _ _ Hscan)
    as (pre & post & -> & -> & Hc & -> & Hskip & Hfree & _).
  intros H. exists pre, s, post. split_and!; try done.
  - destruct (decide (p' = "")), (Selection.isResolved s); injection H as <- <- <-; eauto.
  - destruct (decide (p' = "")), (Selection.isResolved s); injection H as <- <- <-; eauto.
Qed.

Lemma next_prompt p pre s post args :
  complete pre args →
  r_skipIf (Selection.resolve s args) ≠ Some true → ¬ has args (key (name s)) →
  ∃ ref sel sels',
    Action._nextSelection p (pre ++ s :: post) args = (Some (ref, sel), sels') ∧
    r_prompt sel =
      (let p' := default (prompt_after p pre args) (r_prompt (Selection.resolve s args)) in
       if decide (p' = "") then r_prompt (Selection.resolve s args) else Some p').
Proof.
  intros Hc Hskip Hfree. unfold Action._nextSelection.
  rewrite (scan_app 0 pre s post p args Hc Hskip Hfree). cbv zeta.
  destruct (decide _), (Selection.isResolved s); eauto.
Qed.

End NextSelection.

(** ** Action: incomplete moves and pending moves *)

Section ProcessProperties.

Context {St : Type}.
Implicit Types (a : Action St) (args : Args).

Lemma validate_all_nonempty sels args e :
  Action.validate_all sels args = Returned (Some e) → e ≠ "".
Proof.
  induction sels as [|s sels IH]; simpl; [done|].
  destruct (Selection.validate s _ args) as [[e'|]|]; try done.
  destruct (decide (e' = "")); [done|]. by intros [= <-].
Qed.

Lemma incomplete_not_done a args :
  ¬ complete (selections a) args → (Action._getResolvedSelections a args).1 ≠ Some [].
Proof.
  intros Hnc. rewrite resolved_Some, resolution_unfold.
  destruct (Action._nextSelection (a_prompt a) (selections a) args)
    as [[[ref sel]|] sels] eqn:Hnext.
  - by eapply frame_not_empty.
  - by apply nextSelection_None in Hnext as [? _].
Qed.

Lemma process_incomplete a args (st : St) :
  ¬ complete (selections a) args →
  (Action._process a args st).2 = st ∧
  match (Action._process a args st).1 with
  | Thrown m => Action.validate_all (selections a) args = Thrown m
  | Returned None => False
  | Returned (Some e) =>
      e ≠ "" ∧ ∀ e', Action.validate_all (selections a) args = Returned (Some e') → e = e'
  end.
Proof.
  intros Hnc. apply incomplete_not_done in Hnc. unfold Action._process.
  destruct (Action.validate_all (selections a) args) as [error|m] eqn:Hv; [|done].
  assert (Hor : ∀ fb, fb ≠ "" →
    Action.or_else error fb ≠ "" ∧ ∀ e', Returned error = Returned (Some e') → Action.or_else error fb = e').
  { intros fb Hfb. unfold Action.or_else. destruct error as [e|].
    - pose proof (validate_all_nonempty _ _ _ Hv). rewrite decide_False by done.
      split; [done|]. by intros e' [= ->].
    - split; [done|]. by intros e' [=]. }
  destruct (Action._getResolvedSelections a args).1 as [[|m l]|]; [done|..]; simpl;
    (split; [done|]); by apply Hor.
Qed.

End ProcessProperties.

Section PendingMoves.

Variables (action : option string) (prompt : string).

Lemma fold_step_named rec selection args opts l :
  (∀ sels args' ms, (rec sels args').1 = Moves ms → Forall (λ m, pm_action m = action) ms) →
  Forall (λ m, pm_action m = action) (Action.resolvedSelections l) →
  Forall (λ m, pm_action m = action)
         (Action.resolvedSelections (fold_left (Action.step rec selection args) opts l)).
Proof.
  intros Hrec. revert l. induction opts as [|o opts IH]; intros l Hl; [done|].
  simpl. apply IH. unfold Action.step. destruct (Action.exhausted l); [done|].
  destruct (rec _ _) as [[| |ms] sels'] eqn:Hr; simpl; try done.
  apply Forall_app. split; [done|]. eapply Hrec. by rewrite Hr.
Qed.

Lemma frame_named rec sels args ms :
  (∀ sels args' ms, (rec sels args').1 = Moves ms → Forall (λ m, pm_action m = action) ms) →
  (Action.frame rec action prompt sels args).1 = Moves ms →
  Forall (λ m, pm_action m = action) ms.
Proof.
  intros Hrec. unfold Action.frame.
  destruct (Action._nextSelection prompt sels args) as [[[ref sel]|] sels1] eqn:Hnext.
  2: { intros [= <-]. constructor. }
  pose proof (fold_step_named rec sel args (Selection.options sel)) as Hfold.
  unfold Action.simulate.
  match goal with |- context [fold_left _ _ ?l0] => specialize (Hfold l0 Hrec (Forall_nil_2 _)) end.
  repeat case_match; simpl; intros [= <-]; try done; by repeat constructor.
Qed.

Lemma getResolved_named n sels args ms :
  (Action.getResolved n action prompt sels args).1 = Moves ms →
  Forall (λ m, pm_action m = action) ms.
Proof.
  revert sels args ms. induction n as [|n IH]; intros sels args ms; [done|].
  simpl. by apply frame_named.
Qed.

End PendingMoves.

Section PendingMovesAtTheTop.
Context {St : Type}.
Implicit Types (a : Action St) (args : Args).

(** X7. Every pending move that [_getResolvedSelections] returns carries
    the name of the action, holds all the arguments the call was given, and
    puts to the player a selection, read through its reference, that has no
    value among the move's own arguments. The keys of the action's
    selections are as before the call. *)
Theorem pending_move_asks_for_an_open_selection a args l sels :
  Action._getResolvedSelections a args = (Some l, sels) →
  keys sels = keys (selections a) ∧
  Forall (λ m, pm_action m = a_name a ∧ args ⊆ pm_args m ∧
               ∃ r, Action.deref sels (pm_selection m) = Some r ∧
                    pm_args m !! key (r_name r) = None) l.
Proof.
  rewrite resolved_of_resolution. intros [= Hl Hs].
  assert (Hm : (missing (keys (selections a)) args < S (length (selections a)))%nat).
  { pose proof (missing_le (keys (selections a)) args).
    unfold keys in *. rewrite length_fmap in *. lia. }
  destruct (resolution a args) as [res sels0] eqn:Hres. simpl in *. subst sels0.
  destruct res as [| |l0]; try done. injection Hl as ->.
  unfold resolution in Hres.
  pose proof (getResolved_ok (a_name a) (a_prompt a) (keys (selections a))
                (S (length (selections a))) (selections a) args eq_refl Hm) as [_ Hks].
  rewrite Hres in Hks. simpl in Hks. split; [done|].
  pose proof (getResolved_named (a_name a) (a_prompt a) (S (length (selections a)))
                (selections a) args l) as Hn.
  pose proof (getResolved_extend (a_name a) (a_prompt a) (S (length (selections a)))
                (selections a) args l) as He.
  pose proof (getResolved_asks (a_name a) (a_prompt a) (keys (selections a))
                (S (length (selections a))) (selections a) args l eq_refl Hm) as Ha.
  rewrite Hres in Hn, He, Ha. specialize (Hn eq_refl). specialize (He eq_refl).
  specialize (Ha eq_refl). rewrite <- Hks in Ha.
  rewrite Forall_forall in *. intros m Hin. split_and!; auto.
  by apply asks_deref, Ha.
Qed.

End PendingMovesAtTheTop.

(** ** Action: what resolution writes and what it leaves alone *)

Section Preserved.

Variables (action : option string) (prompt : string).

Lemma details_alter_write_prompt p i (sels : list Selection) :
  details <$> alter (Action.write_prompt p) i sels = details <$> sels.
Proof.
  revert i. induction sels as [|s sels IH]; intros [|i]; simpl; try done.
  f_equal. apply IH.
Qed.

Lemma details_alter_override opts i (sels : list Selection) :
  details <$> alter (Action.override_shared opts) i sels = details <$> sels.
Proof.
  revert i. induction sels as [|s sels IH]; intros [|i]; simpl; try done.
  - f_equal. unfold Action.override_shared, details.
    destruct (decide (type s = board)) as [Hb|Hb]; simpl.
    + rewrite !decide_True by done. done.
    + by rewrite decide_False by done.
  - f_equal. apply IH.
Qed.

Lemma nextSelection_details p sels args o sels' :
  Action._nextSelection p sels args = (o, sels') → details <$> sels' = details <$> sels.
Proof.
  unfold Action._nextSelection.
  destruct (Action.scan 0 sels p args) as [[[[i s] sel0] p']|]; [|by intros [= _ <-]].
  repeat case_match; intros [= _ <-]; by rewrite ?details_alter_write_prompt.
Qed.

Lemma fold_step_details rec sel args d opts l :
  (∀ sels args', details <$> sels = d → details <$> (rec sels args').2 = d) →
  details <$> Action.store l = d →
  details <$> Action.store (fold_left (Action.step rec sel args) opts l) = d.
Proof.
  intros Hrec. revert l. induction opts as [|o opts IH]; intros l Hl; simpl; [done|].
  apply IH. unfold Action.step. destruct (Action.exhausted l); [done|].
  pose proof (Hrec (Action.store l) (<[key (r_name sel) := o]> args) Hl) as Hsh.
  by destruct (rec _ _) as [[| |submoves] sels'].
Qed.

Lemma frame_details rec d sels args :
  (∀ sels args', details <$> sels = d → details <$> (rec sels args').2 = d) →
  details <$> sels = d → details <$> (Action.frame rec action prompt sels args).2 = d.
Proof.
  intros Hrec Hd. unfold Action.frame.
  destruct (Action._nextSelection prompt sels args) as [[[ref sel]|] sels1] eqn:Hnext.
  2: { apply nextSelection_details in Hnext. simpl. congruence. }
  apply nextSelection_details in Hnext. rewrite Hd in Hnext.
  unfold Action.simulate.
  match goal with |- context [fold_left _ _ ?l0] =>
    pose proof (fold_step_details rec sel args d (Selection.options sel) l0 Hrec Hnext) as Hfold
  end.
  repeat case_match; simpl; rewrite ?details_alter_override; done.
Qed.

Lemma getResolved_details n sels args :
  details <$> (Action.getResolved n action prompt sels args).2 = details <$> sels.
Proof.
  revert sels args. induction n as [|n IH]; intros sels args; [done|]. simpl.
  apply frame_details; [|done]. intros sels' args' <-. apply IH.
Qed.

End Preserved.

Section Filled.

Variables (action : option string) (prompt : string).

Lemma nextSelection_filled p sels args o sels' i s :
  Action._nextSelection p sels args = (o, sels') →
  sels !! i = Some s → is_Some (args !! key (name s)) →
  sels' !! i = Some s ∧
  match o with Some (Shared j, _) => j ≠ i | _ => True end.
Proof.
  unfold Action._nextSelection. intros Hnext Hi Hfilled.
  destruct (Action.scan 0 sels p args) as [[[[j s0] sel0] p']|] eqn:Hscan.
  2: { by injection Hnext as <- <-. }
  destruct (scan_Some _ _ _ _ _ _ _ _ Hscan) as (j' & -> & Hj & -> & _ & Hfree).
  simpl in *. assert (Hne : j' ≠ i).
  { intros ->. rewrite Hi in Hj. injection Hj as ->. rewrite Hfree in Hfilled.
    by destruct Hfilled. }
  destruct (decide (p' = "")), (Selection.isResolved s0); injection Hnext as <- <-;
    rewrite ?list_lookup_alter_ne by done; done.
Qed.

Lemma fold_step_filled rec sel args opts l i s :
  keeps_filled rec →
  Action.store l !! i = Some s → is_Some (args !! key (name s)) →
  Action.store (fold_left (Action.step rec sel args) opts l) !! i = Some s.
Proof.
  intros Hrec. revert l. induction opts as [|o opts IH]; intros l Hl Hf; simpl; [done|].
  apply IH; [|done]. unfold Action.step. destruct (Action.exhausted l); [done|].
  pose proof (Hrec (Action.store l) (<[key (r_name sel) := o]> args) i s Hl) as Hk.
  assert (Hs : is_Some (<[key (r_name sel) := o]> args !! key (name s))).
  { rewrite lookup_insert_is_Some. destruct (decide (key (r_name sel) = key (name s))); auto. }
  specialize (Hk Hs). by destruct (rec _ _) as [[| |submoves] sels'].
Qed.

Lemma frame_filled rec : keeps_filled rec → keeps_filled (Action.frame rec action prompt).
Proof.
  intros Hrec sels args i s Hi Hf. unfold Action.frame.
  destruct (Action._nextSelection prompt sels args) as [[[ref sel]|] sels1] eqn:Hnext.
  2: { by apply (nextSelection_filled _ _ _ _ _ i s) in Hnext as [? _]. }
  apply (nextSelection_filled _ _ _ _ _ i s) in Hnext as [Hi1 Hne]; [|done..].
  unfold Action.simulate.
  match goal with |- context [fold_left _ _ ?l0] =>
    pose proof (fold_step_filled rec sel args (Selection.options sel) l0 i s Hrec Hi1 Hf) as Hfold
  end.
  repeat case_match; simpl; rewrite ?list_lookup_alter_ne by done; done.
Qed.

Lemma getResolved_filled n : keeps_filled (Action.getResolved n action prompt).
Proof. induction n as [|n IH]; [by intros ? ? ? ?|]. simpl. by apply frame_filled. Qed.

End Filled.

Section Branches.

Context {St : Type}.
Implicit Types (a : Action St) (args : Args).

Lemma nested_not_exhausted a sels args : (nested a sels args).1 ≠ Exhausted.
Proof. apply getResolved_fuel_enough. Qed.

Lemma nested_keeps_filled a : keeps_filled (nested a).
Proof. intros sels args i s. apply getResolved_filled. Qed.

Lemma nested_extend a : moves_extend (nested a).
Proof. intros sels args l. apply getResolved_extend. Qed.

Lemma fold_step_filled' rec sel args opts l i s :
  keeps_filled rec →
  Action.store l !! i = Some s → key (name s) = key (r_name sel) →
  Action.store (fold_left (Action.step rec sel args) opts l) !! i = Some s.
Proof.
  intros Hrec. revert l. induction opts as [|o opts IH]; intros l Hl Hf; simpl; [done|].
  apply IH; [|done]. unfold Action.step. destruct (Action.exhausted l); [done|].
  pose proof (Hrec (Action.store l) (<[key (r_name sel) := o]> args) i s Hl) as Hk.
  rewrite Hf, lookup_insert_eq in Hk. specialize (Hk (mk_is_Some _ _ eq_refl)).
  by destruct (rec _ _) as [[| |submoves] sels'].
Qed.

Lemma fold_step_holds rec sel args opts l :
  moves_extend rec →
  Forall (λ m, is_Some (pm_args m !! key (r_name sel))) (Action.resolvedSelections l) →
  Forall (λ m, is_Some (pm_args m !! key (r_name sel)))
         (Action.resolvedSelections (fold_left (Action.step rec sel args) opts l)).
Proof.
  intros Hrec. revert l. induction opts as [|o opts IH]; intros l Hl; simpl; [done|].
  apply IH. unfold Action.step. destruct (Action.exhausted l); [done|].
  destruct (rec _ _) as [[| |ms] sels'] eqn:Hr; simpl; try done.
  apply Forall_app. split; [done|].
  pose proof (Hrec (Action.store l) (<[key (r_name sel) := o]> args) ms) as He.
  rewrite Hr in He. specialize (He eq_refl).
  eapply Forall_impl; [exact He|]. intros m Hsub. exists o.
  eapply lookup_weaken; [|exact Hsub]. apply lookup_insert_eq.
Qed.

Lemma fold_step_mayExpand a sel args opts l :
  Action.exhausted l = false → r_expand sel = true →
  Action.mayExpand (fold_left (Action.step (nested a) sel args) opts l) = true ↔
  Action.mayExpand l = true ∧
  branches_pending a (key (r_name sel)) args (Action.store l) opts.
Proof.
  intros Hex Hexp. revert l Hex. induction opts as [|o opts IH]; intros l Hex; simpl.
  { tauto. }
  rewrite resolved_of_resolution.
  unfold Action.step at 2. rewrite Hex.
  pose proof (nested_not_exhausted a (Action.store l) (<[key (r_name sel) := o]> args)) as Hne.
  unfold nested at 2. unfold nested in Hne.
  destruct (resolution (with_selections a (Action.store l)) _) as [[| |sub] sels1]; [done|..]; simpl.
  - rewrite IH by done. simpl.
    split; [intros [? ?]; by split_and!|]. by intros (? & _ & ?).
  - rewrite IH by done. simpl. rewrite Hexp. simpl.
    destruct sub as [|m sub]; simpl.
    + split; [by intros [? _]|]. by intros (_ & ? & _).
    + split; [intros [? ?]; by split_and!|]. by intros (? & _ & ?).
Qed.

Lemma fold_step_expanded rec sel args opts l :
  r_expand sel = true →
  (Action.mayExpand l = true → Action.possibleOptions l ≠ [] → Action.resolvedSelections l ≠ []) →
  let l' := fold_left (Action.step rec sel args) opts l in
  Action.mayExpand l' = true → Action.possibleOptions l' ≠ [] → Action.resolvedSelections l' ≠ [].
Proof.
  intros Hexp. revert l. induction opts as [|o opts IH]; intros l Hl; simpl; [done|].
  apply IH. unfold Action.step. destruct (Action.exhausted l); [done|].
  destruct (rec _ _) as [[| |ms] sels']; simpl; try done.
  rewrite Hexp. simpl. destruct ms as [|m ms]; simpl; [done|].
  intros _ _ H. by apply app_eq_nil in H as [_ ?].
Qed.

End Branches.

Section ResolutionShape.

Context {St : Type}.
Implicit Types (a : Action St) (args : Args).

Lemma enough_steps a args :
  (missing (keys (selections a)) args < S (length (selections a)))%nat.
Proof.
  pose proof (missing_le (keys (selections a)) args).
  unfold keys in *. rewrite length_fmap in *. lia.
Qed.

(** X9. Expansion. When the next selection has [expand], is not on the
    board, is possible and bounded, and of its options, tried in turn,
    none completes the action while at least one can be completed,
    [_getResolvedSelections] returns pending moves, at least one, each of
    which already holds a value for the selection: the selection itself is
    not put to the player. *)
Theorem expanded_selection_is_not_asked a args ref sel sels :
  Action._nextSelection (a_prompt a) (selections a) args = (Some (ref, sel), sels) →
  r_expand sel = true → r_type sel ≠ board →
  Selection.isPossible sel = true → Selection.isUnbounded sel = false →
  branches_pending a (key (r_name sel)) args sels (Selection.options sel) →
  ¬ branches_infeasible a (key (r_name sel)) args sels (Selection.options sel) →
  ∃ m l sels',
    Action._getResolvedSelections a args = (Some (m :: l), sels') ∧
    Forall (λ m, args ⊆ pm_args m ∧ is_Some (pm_args m !! key (r_name sel))) (m :: l).
Proof.
  intros Hnext Hexp Hty Hposs Hub Hpend Hfeas.
  destruct (nextSelection_Some _ _ _ _ _ _ Hnext) as (Hks & Hin & Hfree & _).
  pose proof (simulate_not_exhausted a sel args sels Hks Hin Hfree) as Hex.
  pose proof (getResolved_ok (a_name a) (a_prompt a) (keys (selections a))
                (length (selections a))) as Hrec.
  pose proof (fold_step_survivors _ _ _ sel args Hrec Hin Hfree (enough_steps a args)
                (Selection.options sel)
                {| Action.possibleOptions := []; Action.pruned := false;
                   Action.resolvedSelections := []; Action.mayExpand := r_expand sel;
                   Action.store := sels; Action.exhausted := false |} eq_refl Hks) as Hsurv.
  simpl in Hsurv. rewrite (all_pruned_branches a _ args sels _ Hks Hin Hfree) in Hsurv.
  fold (Action.simulate (Action.getResolved (length (selections a)) (a_name a) (a_prompt a))
          sel args sels) in Hsurv.
  rewrite (simulate_nested a sel args sels Hks Hin Hfree) in Hsurv.
  rewrite resolved_of_resolution, resolution_unfold. unfold Action.frame.
  rewrite Hnext, Hposs, Hub. simpl.
  rewrite (simulate_nested a sel args sels Hks Hin Hfree).
  set (l := Action.simulate (nested a) sel args sels) in *.
  assert (Hpo : Action.possibleOptions l ≠ []) by (intros H; apply Hfeas, Hsurv, H).
  assert (Hme : Action.mayExpand l = true).
  { apply fold_step_mayExpand; [done|done|]. by split. }
  assert (Hrs : Action.resolvedSelections l ≠ []).
  { by apply (fold_step_expanded (nested a) sel args (Selection.options sel)). }
  assert (Hext : Forall (λ m, args ⊆ pm_args m) (Action.resolvedSelections l)).
  { apply (fold_step_extend (nested a) sel args Hfree); [apply nested_extend|constructor]. }
  assert (Hhold : Forall (λ m, is_Some (pm_args m !! key (r_name sel)))
                         (Action.resolvedSelections l)).
  { apply fold_step_holds; [apply nested_extend|constructor]. }
  rewrite Hex, (bool_decide_eq_false_2 _ Hpo), (bool_decide_eq_false_2 _ Hrs).
  rewrite (bool_decide_eq_false_2 _ Hty), Hme. simpl.
  destruct (Action.resolvedSelections l) as [|m ms] eqn:Hl; [done|].
  eexists m, ms, _. split; [reflexivity|].
  rewrite Forall_forall in *. intros x Hx. split; auto.
Qed.

Lemma override_shared_other opts s : type s ≠ board → Action.override_shared opts s = s.
Proof. intros H. unfold Action.override_shared. by rewrite decide_False. Qed.

(** X10. A pending move that asks for the next selection itself, that is
    with the arguments as given, asks for it exactly as [_nextSelection]
    found it when it is not a board selection: whatever options the
    simulation dropped, its choices are not narrowed. *)
Theorem choice_is_asked_as_it_stands a args ref sel sels l sels' m :
  Action._nextSelection (a_prompt a) (selections a) args = (Some (ref, sel), sels) →
  r_type sel ≠ board →
  Action._getResolvedSelections a args = (Some l, sels') →
  m ∈ l → pm_args m = args →
  Action.deref sels' (pm_selection m) = Some sel.
Proof.
  intros Hnext Hty Hres Hm Hargs.
  destruct (nextSelection_Some _ _ _ _ _ _ Hnext) as (Hks & Hin & Hfree & _).
  pose proof (nextSelection_deref _ _ _ _ _ _ Hnext) as Hderef.
  pose proof (simulate_not_exhausted a sel args sels Hks Hin Hfree) as Hex.
  rewrite resolved_of_resolution, resolution_unfold in Hres. unfold Action.frame in Hres.
  rewrite Hnext in Hres. destruct (Selection.isPossible sel); simpl in Hres; [|done].
  destruct (Selection.isUnbounded sel).
  { injection Hres as <- <-. apply list_elem_of_singleton in Hm as ->. done. }
  rewrite (simulate_nested a sel args sels Hks Hin Hfree) in Hres.
  set (l0 := Action.simulate (nested a) sel args sels) in *.
  rewrite Hex in Hres. destruct (bool_decide (Action.possibleOptions l0 = [])); [done|].
  assert (Hhold : Forall (λ m, is_Some (pm_args m !! key (r_name sel)))
                         (Action.resolvedSelections l0)).
  { apply fold_step_holds; [apply nested_extend|constructor]. }
  assert (Hdeep : m ∈ Action.resolvedSelections l0 → False).
  { intros Hin'. rewrite Forall_forall in Hhold. apply Hhold in Hin'.
    rewrite Hargs, Hfree in Hin'. by destruct Hin'. }
  assert (Hmove : ∀ b : bool,
    Action.deref
      (match ref with
       | Shared i => if b then alter (Action.override_shared (Action.possibleOptions l0)) i
                                      (Action.store l0)
                     else Action.store l0
       | Own _ => Action.store l0
       end)
      (match ref with
       | Shared i => Shared i
       | Own r => if b then Own (Selection.overrideOptions r (Action.possibleOptions l0)).1
                  else Own r
       end) = Some sel).
  { intros b. destruct ref as [i|r]; simpl in *.
    - destruct (sels !! i) as [s|] eqn:Hi; [|done]. simpl in Hderef. injection Hderef as Hs.
      assert (Hl0 : Action.store l0 !! i = Some s).
      { apply fold_step_filled'; [apply nested_keeps_filled|done|by rewrite <- Hs]. }
      destruct b; [|by rewrite Hl0; simpl; rewrite Hs].
      rewrite list_lookup_alter, Hl0, decide_True by done. simpl.
      rewrite override_shared_other; [by rewrite Hs|]. by rewrite <- Hs in Hty.
    - injection Hderef as ->. destruct b; [|done]. simpl.
      unfold Selection.overrideOptions. by rewrite decide_False by done. }
  repeat match type of Hres with context [if ?c then _ else _] => destruct c eqn:? end;
    injection Hres as <- <-;
    try (apply list_elem_of_singleton in Hm as ->; simpl;
         first [exact (Hmove true)|exact (Hmove false)]);
    by destruct Hdeep.
Qed.

End ResolutionShape.

(** ** Game: allowed actions and moves *)

Section GameProperties.

Import Game.

Context {P St : Type}.

(** X14. [getResolvedSelections] without an action step. In god mode
    before the game has started the call throws. Otherwise it answers
    [undefined], whatever the action and the arguments asked about, for the
    current player when the flow awaits no action of them, god mode or not,
    and outside god mode for every player that is not the current one. *)
Theorem no_pending_moves_without_an_action_step (declared : string → Action St) godMode phase isCurrent
      actionNeeded isPossible chosen args :
  (godMode = true → phase ≠ started →
   getResolvedSelectionsFor declared godMode phase isCurrent actionNeeded isPossible chosen args =
     Thrown "cannot call god mode actions until started") ∧
  ((godMode = true → phase = started) →
   isCurrent = true ∧ actionNeeded = None ∨ isCurrent = false ∧ godMode = false →
   getResolvedSelectionsFor declared godMode phase isCurrent actionNeeded isPossible chosen args =
     Returned None).
Proof.
  unfold getResolvedSelectionsFor, allowedActions, godModeActions_keys. split.
  - intros -> Hph. by rewrite decide_False.
  - intros Hph [[-> ->]|[-> ->]]; [|done].
    destruct godMode; [|done]. by rewrite decide_True by auto.
Qed.

(** Outside god mode the actions [allowedActions] answers are exactly
    the actions of the awaited step that are possible, and there are none
    for a player that is not the current one. *)
Theorem allowed_actions_are_the_possible_actions_of_the_step godMode phase isCurrent actionNeeded isPossible allowed n :
  godMode = false →
  allowedActions godMode phase isCurrent actionNeeded isPossible = Returned allowed →
  n ∈ actions allowed ↔
  isCurrent = true ∧ isPossible n = true ∧
  ∃ actionStep ns, actionNeeded = Some actionStep ∧ as_actions actionStep = Some ns ∧ n ∈ ns.
Proof.
  intros -> H. unfold allowedActions in H. simpl in H.
  destruct isCurrent; simpl in H.
  2: { injection H as <-. simpl. split; [intros Hn; by apply elem_of_nil in Hn|]. intros [? _]. done. }
  destruct actionNeeded as [actionStep|]; injection H as <-; simpl.
  2: { split; [intros Hn; by apply elem_of_nil in Hn|]. by intros (_ & _ & ? & ? & ? & _). }
  destruct (as_actions actionStep) as [ns|] eqn:Hacts; simpl.
  - rewrite list_elem_of_In, filter_In, <- list_elem_of_In. split.
    + intros [? ?]. split_and!; try done. by exists actionStep, ns.
    + intros (_ & ? & ? & ? & [= <-] & Hns & ?). rewrite Hacts in Hns. by injection Hns as <-.
  - split; [intros Hn; by apply elem_of_nil in Hn|].
    intros (_ & _ & ? & ? & [= <-] & Hns & _). by rewrite Hacts in Hns.
Qed.

(** X15. [processMove] where the error is that of the action's [_process],
    as in the god mode branch, the behaviours writing the board only. A
    move of which the record leaves a selection open, one that is not
    skipped and of which the name is not found in the record as [in] finds
    it, leaves the whole game as it was, the player context included, and
    the call returns a non-empty error, provided the validation does not
    throw. *)
Theorem incomplete_move_leaves_the_game_alone
        (player : P) (a : Action St) args (g : state P St) :
  ¬ complete (selections a) args →
  (∃ error, Action.validate_all (selections a) args = Returned error) →
  ∃ e, e ≠ "" ∧
    processMove player (on_board (Action._process a args)) g = (Returned (Some e), g).
Proof.
  intros Hnc [error Hv].
  destruct (process_incomplete a args (rest g) Hnc) as [Hst Hres].
  unfold processMove, inContextOfPlayer, contextualizeBoardToPlayer, on_board. simpl.
  destruct (Action._process a args (rest g)) as [[[e|]|m] st]; simpl in *; subst st.
  - destruct Hres as [Hne _]. exists e. split; [done|].
    rewrite decide_False by done. by destruct g.
  - done.
  - congruence.
Qed.

(** X16. [processMove] where the error is that of the action's [_process],
    as in the god mode branch, the behaviours writing the board only. A
    behaviour that throws an [Error] with an empty message makes the call
    report success: with complete and valid arguments it returns
    [undefined], although the behaviours registered after the failing one
    did not run; the board is as the earlier ones and the failing one left
    it and the player context is put back. *)
Theorem empty_error_message_reads_as_success
        (player : P) (a : Action St) args (g : state P St) pre move post :
  complete (selections a) args → valid (selections a) args →
  moves a = pre ++ move :: post →
  all_return pre args →
  (move args (apply_all pre args (rest g))).2 = Some (Error "") →
  processMove player (on_board (Action._process a args)) g =
    (Returned None,
     {| ctx_player := ctx_player g;
        rest := (move args (apply_all pre args (rest g))).1 |}).
Proof.
  intros Hc Hv Hm Hpre Hthrow.
  unfold processMove, inContextOfPlayer, contextualizeBoardToPlayer, on_board. simpl.
  rewrite (process_complete a args (rest g) None) by (by try apply validate_all_valid).
  rewrite Hm, (run_moves_throw pre post move args (rest g) (Error "")) by done. done.
Qed.

End GameProperties.

(** ** The players in turn *)

Section CollectionProperties.

Import PlayerCollection.

Context {P : Type} (position : P → Z).
Implicit Types (this : t (P := P)).

Lemma find_position (l : list P) i p :
  NoDup (position <$> l) → l !! i = Some p →
  list_find (λ q, position q = position p) l = Some (i, p).
Proof.
  intros Hnd Hi. apply list_find_Some. split_and!; [done..|].
  intros j y Hj Hlt Heq.
  assert (j = i); [|lia].
  eapply (NoDup_lookup _ _ _ _ Hnd); rewrite list_lookup_fmap.
  - by rewrite Hj; simpl; rewrite Heq.
  - by rewrite Hi.
Qed.

Lemma find_absent (l : list P) player :
  (∀ p, p ∈ l → position p ≠ player) → list_find (λ q, position q = player) l = None.
Proof. intros H. apply list_find_None. rewrite Forall_forall. exact H. Qed.

Lemma turnOrderOf_spec this i p :
  NoDup (position <$> players this) → players this !! i = Some p →
  turnOrderOf position (position p) this = Returned (i + 1)%nat.
Proof. intros Hnd Hi. unfold turnOrderOf. by rewrite (find_position _ i p). Qed.

Lemma after_spec this i p :
  NoDup (position <$> players this) → players this !! i = Some p →
  after position (position p) this =
    Returned (players this !! ((i + 1) mod length (players this))%nat).
Proof. intros Hnd Hi. unfold after. by rewrite (turnOrderOf_spec this i p). Qed.

Lemma seat_exists (l : list P) i p k :
  l !! i = Some p → ∃ q, l !! ((i + k) mod length l)%nat = Some q.
Proof.
  intros Hi. apply lookup_lt_is_Some_2. apply lookup_lt_Some in Hi.
  apply Nat.mod_upper_bound. lia.
Qed.

Lemma next_spec this i p :
  NoDup (position <$> players this) → players this !! i = Some p →
  currentPosition this = Some (position p) →
  ∃ q, players this !! ((i + 1) mod length (players this))%nat = Some q ∧
       next position this =
         (Returned (Some q),
          {| players := players this; currentPosition := Some (position q) |}).
Proof.
  intros Hnd Hi Hcur. destruct (seat_exists _ i p 1 Hi) as [q Hq].
  exists q. split; [done|]. unfold next. rewrite Hcur, (after_spec this i p), Hq by done.
  unfold current, atPosition. simpl. by rewrite (find_position _ _ q Hnd Hq).
Qed.

Lemma turns_spec this i p k :
  NoDup (position <$> players this) → players this !! i = Some p →
  currentPosition this = Some (position p) →
  ∃ q, players this !! ((i + k) mod length (players this))%nat = Some q ∧
       Nat.iter k (λ s, (next position s).2) this =
         {| players := players this; currentPosition := Some (position q) |}.
Proof.
  intros Hnd Hi Hcur. induction k as [|k IH].
  - exists p. rewrite Nat.add_0_r, Nat.mod_small by (by eapply lookup_lt_Some).
    split; [done|]. simpl. destruct this; simpl in *; by subst.
  - destruct IH as (q & Hq & Hk). simpl. rewrite Hk.
    destruct (next_spec {| players := players this; currentPosition := Some (position q) |}
                _ q Hnd Hq eq_refl) as (q' & Hq' & Hnext).
    simpl in *. exists q'. rewrite Hnext. split; [|done].
    rewrite <- Hq'. f_equal.
    assert (length (players this) ≠ 0)%nat by (apply lookup_lt_Some in Hi; lia).
    rewrite Nat.Div0.add_mod_idemp_l. f_equal. lia.
Qed.

Lemma filter_others (l : list P) i p :
  NoDup (position <$> l) → l !! i = Some p →
  filter (λ q, Some (position q) ≠ Some (position p)) l = delete i l.
Proof.
  revert i. induction l as [|x l IH]; intros i Hnd Hi; [done|].
  rewrite fmap_cons in Hnd. apply NoDup_cons in Hnd as [Hx Hnd].
  destruct i as [|i]; simpl in *.
  - injection Hi as ->. rewrite filter_cons_False by (intros H; by apply H).
    clear IH. induction l as [|y l IHl]; [done|].
    rewrite fmap_cons in Hx, Hnd. apply not_elem_of_cons in Hx as [Hne Hx].
    apply NoDup_cons in Hnd as [_ Hnd].
    rewrite filter_cons_True by congruence. f_equal. by apply IHl.
  - rewrite filter_cons_True.
    + f_equal. by apply IH.
    + intros [= Heq]. apply Hx. rewrite Heq. apply list_elem_of_fmap_2.
      by eapply list_elem_of_lookup_2.
Qed.

End CollectionProperties.

(** ** The queue of interrupts *)

Section InterruptProperties.

Import Interrupt.

Context {D : Type}.
Implicit Types (q calls : list (Signal (D := D))).

Lemma interrupt_record (c : Signal (D := D)) : {| data := data c; signal := signal c |} = c.
Proof. by destruct c. Qed.

Lemma interrupts_cons c calls q :
  interrupts (c :: calls) q = interrupts calls (interrupt (signal c) (data c) q).
Proof. reflexivity. Qed.

Lemma interrupts_after_loop calls c :
  signal c ≠ subflow →
  interrupts calls [c] = [default c (last_loop calls)].
Proof.
  revert c. induction calls as [|c' calls IH]; intros c Hc; [done|].
  rewrite interrupts_cons.
  unfold last_loop. unfold interrupt. destruct (decide (signal c' = subflow)) as [Hs|Hs].
  - simpl. rewrite bool_decide_eq_false_2 by done. simpl.
    rewrite filter_cons_False by (intros H; by apply H). by apply IH.
  - rewrite interrupt_record, filter_cons_True by done. rewrite IH by done. f_equal.
    unfold last_loop. destruct (filter _ calls) as [|x l] eqn:Hf; [done|].
    rewrite last_cons_cons. destruct (last (x :: l)) eqn:Hl; [done|].
    by apply last_None in Hl.
Qed.

(** X20. The queue of interrupts after any sequence of calls of
    [interrupt] that starts from the empty queue: if some call was a loop
    interrupt ([repeat], [continue] or [break]) the queue holds the last of
    them and nothing else, the subflows requested before it being cancelled
    and those requested after it ignored; otherwise it holds every subflow
    requested, in the order of the calls. *)
Theorem interrupts_keep_the_last_loop_interrupt calls :
  interrupts calls [] =
  match last_loop calls with
  | Some c => [c]
  | None => calls
  end.
Proof.
  assert (Hgen : ∀ q, Forall (λ c, signal c = subflow) q →
    interrupts calls q = match last_loop calls with Some c => [c] | None => q ++ calls end).
  { induction calls as [|c calls IH]; intros q Hq.
    - simpl. by rewrite app_nil_r.
    - rewrite interrupts_cons. unfold last_loop. unfold interrupt.
      destruct (decide (signal c = subflow)) as [Hs|Hs].
      + assert (Hall : forallb (λ x, bool_decide (signal x = subflow)) q = true).
        { apply forallb_forall. intros x Hx%list_elem_of_In. apply bool_decide_eq_true.
          rewrite Forall_forall in Hq. by apply Hq. }
        rewrite Hall, interrupt_record. rewrite filter_cons_False by (intros H; by apply H).
        rewrite IH.
        * fold (last_loop calls). destruct (last_loop calls); [done|]. by rewrite <- app_assoc.
        * apply Forall_app. split; [done|]. by apply Forall_singleton.
      + rewrite interrupt_record, filter_cons_True by done.
        rewrite interrupts_after_loop by done. unfold last_loop.
        destruct (filter _ calls) as [|x l] eqn:Hf; [done|].
        rewrite last_cons_cons. destruct (last (x :: l)) eqn:Hl; [done|].
        by apply last_None in Hl. }
  rewrite Hgen by constructor. done.
Qed.

End InterruptProperties.

(** ** Further properties of the next selection *)

Section NextSelectionTheorems.

(** X4. [_nextSelection] finds no selection exactly when every selection
    that is not skipped is filed in the record as [s.name in args] has it:
    under an own key, or under a name that every object inherits from
    [Object.prototype]. Otherwise what it returns is the first selection,
    in the order of declaration, that is not skipped and is not so filed,
    every selection before it being skipped or filed; it is that selection
    resolved under the arguments, with at most its prompt rewritten; and it
    is what the reference handed back reads as, in the action's own list
    when none of the selection's fields is a function. *)
Theorem next_selection_is_the_first_open p sels args :
  ((Action._nextSelection p sels args).1 = None ↔ complete sels args) ∧
  ∀ ref sel sels',
    Action._nextSelection p sels args = (Some (ref, sel), sels') →
    Action.deref sels' ref = Some sel ∧
    ∃ pre s post,
      sels = pre ++ s :: post ∧ complete pre args ∧
      r_skipIf (Selection.resolve s args) ≠ Some true ∧
      ¬ has args (key (name s)) ∧
      (sel = Selection.resolve s args ∨
       ∃ q, sel = Action.r_write_prompt q (Selection.resolve s args)) ∧
      ref = (if Selection.isResolved s then Shared (length pre) else Own sel).
Proof.
  split.
  - split.
    + destruct (Action._nextSelection p sels args) as [[x|] sels'] eqn:Hnext; [done|].
      intros _. by apply nextSelection_None in Hnext as [? _].
    + intros Hc. by rewrite nextSelection_complete.
  - intros ref sel sels' Hnext. split; [by eapply nextSelection_deref|].
    by eapply next_is_first_open.
Qed.

(** X5. The prompt of the next selection. Its own prompt, when it has one,
    is kept. When it has none, the prompt in force is that of the nearest
    selection before it that is not skipped and has a prompt, be it the
    empty string and whether or not that selection is already filed, and
    that of the action when there is no such selection; the next selection
    takes the prompt in force, and is left without a prompt when the prompt
    in force is the empty string. *)
Theorem next_selection_inherits_the_prompt p pre s post args :
  complete pre args →
  r_skipIf (Selection.resolve s args) ≠ Some true →
  ¬ has args (key (name s)) →
  ∃ ref sel sels',
    Action._nextSelection p (pre ++ s :: post) args = (Some (ref, sel), sels') ∧
    (∀ q, r_prompt (Selection.resolve s args) = Some q → r_prompt sel = Some q) ∧
    (r_prompt (Selection.resolve s args) = None →
       (Forall (silent args) pre →
          r_prompt sel = if decide (p = "") then None else Some p) ∧
       (∀ pre1 s' pre2 q,
          pre = pre1 ++ s' :: pre2 →
          r_skipIf (Selection.resolve s' args) ≠ Some true →
          r_prompt (Selection.resolve s' args) = Some q →
          Forall (silent args) pre2 →
          r_prompt sel = if decide (q = "") then None else Some q)).
Proof.
  intros Hc Hskip Hfree.
  destruct (next_prompt p pre s post args Hc Hskip Hfree) as (ref & sel & sels' & Hnext & Hp).
  exists ref, sel, sels'. split; [done|]. cbv zeta in Hp. split.
  - intros q Hq. rewrite Hp, Hq. simpl. destruct (decide (q = "")); congruence.
  - intros Hnone. rewrite Hnone in Hp. simpl in Hp. split.
    + intros Hsil. by rewrite Hp, prompt_after_silent.
    + intros pre1 s' pre2 q -> Hs' Hq Hsil.
      rewrite Hp, prompt_after_app. cbn [prompt_after]. cbv zeta.
      rewrite prompt_after_silent by done.
      rewrite (decide_False (P := r_skipIf (Selection.resolve s' args) = Some true)) by done.
      by rewrite Hq.
Qed.

End NextSelectionTheorems.

Lemma next_selection_is_the_first_open_witness :
  ∃ sel sels',
    Action._nextSelection "Take" [Examples.which_resource; Examples.how_many] Examples.oil =
      (Some (Shared 1, sel), sels') ∧
    Action.deref sels' (Shared 1) = Some sel.
Proof.
  edestruct (proj2 (next_selection_is_the_first_open
                      "Take" [Examples.which_resource; Examples.how_many] Examples.oil)) as [Hd _].
  - vm_compute. reflexivity.
  - eexists _, _. split; [vm_compute; reflexivity|exact Hd].
Defined.

Lemma next_selection_inherits_the_prompt_witness :
  (∃ ref sel sels',
     Action._nextSelection "Take" [Examples.which_resource; Examples.how_many] Examples.oil =
       (Some (ref, sel), sels') ∧
     r_prompt sel = Some "Which resource?") ∧
  (∃ ref sel sels',
     Action._nextSelection "Take"
       [Examples.which_resource; Examples.unprompted; Examples.how_many] Examples.oil_of_grade =
       (Some (ref, sel), sels') ∧
     r_prompt sel = None).
Proof.
  split.
  - destruct (next_selection_inherits_the_prompt "Take" [Examples.which_resource]
                Examples.how_many [] Examples.oil)
      as (ref & sel & sels' & Hnext & _ & Hinherit).
    + constructor; [right; left; vm_compute; by eexists|constructor].
    + discriminate.
    + apply (bool_decide_unpack _). vm_compute. exact I.
    + exists ref, sel, sels'. split; [exact Hnext|].
      apply (proj2 (Hinherit eq_refl) [] Examples.which_resource [] "Which resource?");
        [reflexivity|discriminate|reflexivity|constructor].
  - destruct (next_selection_inherits_the_prompt "Take"
                [Examples.which_resource; Examples.unprompted]
                Examples.how_many [] Examples.oil_of_grade)
      as (ref & sel & sels' & Hnext & _ & Hinherit).
    + constructor; [right; left; vm_compute; by eexists|].
      constructor; [right; left; vm_compute; by eexists|constructor].
    + discriminate.
    + apply (bool_decide_unpack _). vm_compute. exact I.
    + exists ref, sel, sels'. split; [exact Hnext|].
      apply (proj2 (Hinherit eq_refl) [Examples.which_resource] Examples.unprompted [] "");
        [reflexivity|discriminate|reflexivity|constructor].
Defined.

(** ** Further properties of an action's resolution and processing *)

Section ActionTheorems.

Context {St : Type}.
Implicit Types (a : Action St) (args : Args).

(** X6. When the name of some selection that is not skipped is not found in
    the record as [in] finds it, neither as a key of the record nor as a
    name inherited from [Object.prototype], [_process] runs no behaviour:
    the board is left as it was and the call either throws what the
    validation threw or returns a non-empty error, which is the validation
    error when the validation found one. *)
Theorem incomplete_move_is_refused a args (st : St) :
  ¬ complete (selections a) args →
  (Action._process a args st).2 = st ∧
  match (Action._process a args st).1 with
  | Thrown m => Action.validate_all (selections a) args = Thrown m
  | Returned None => False
  | Returned (Some e) =>
      e ≠ "" ∧ ∀ e', Action.validate_all (selections a) args = Returned (Some e') → e = e'
  end.
Proof. apply process_incomplete. Qed.

(** X8. What resolution writes to the action's own selections. Whatever
    the arguments, after [_getResolvedSelections] every selection has the
    name, kind, bounds, choices, conditions and flags it had, and a
    selection that is not on the board has the candidates it had: only
    prompts and the candidates of board selections are ever written. A
    selection that has a value among the arguments is not written at all. *)
Theorem resolution_writes_only_prompts_and_candidates a args :
  details <$> (Action._getResolvedSelections a args).2 = details <$> selections a ∧
  ∀ i s, selections a !! i = Some s → is_Some (args !! key (name s)) →
         (Action._getResolvedSelections a args).2 !! i = Some s.
Proof.
  rewrite resolved_of_resolution. simpl. unfold resolution. split.
  - apply getResolved_details.
  - intros i s. apply getResolved_filled.
Qed.

End ActionTheorems.

(** X12. The recursion of [_getResolvedSelections] comes back: it nests at
    most once per selection that has no value yet. Given more steps than
    there are such selections the embedding never runs out of them, and the
    result is the same whatever the number of steps given. *)
Theorem resolution_nests_once_per_open_selection action prompt sels args fuel :
  (missing (keys sels) args < fuel)%nat →
  (Action.getResolved fuel action prompt sels args).1 ≠ Exhausted ∧
  Action.getResolved fuel action prompt sels args =
    Action.getResolved (S (missing (keys sels) args)) action prompt sels args.
Proof.
  intros Hm. split.
  - by apply (getResolved_ok action prompt (keys sels) fuel).
  - apply getResolved_fuel_irrelevant; lia.
Qed.

Lemma incomplete_move_is_refused_witness :
  (Action._process Examples.counters ∅ []).2 = [] ∧
  match (Action._process Examples.counters ∅ []).1 with
  | Thrown m => Action.validate_all (selections Examples.counters) ∅ = Thrown m
  | Returned None => False
  | Returned (Some e) =>
      e ≠ "" ∧
      ∀ e', Action.validate_all (selections Examples.counters) ∅ = Returned (Some e') → e = e'
  end.
Proof.
  apply incomplete_move_is_refused.
  unfold complete. apply (bool_decide_unpack _). vm_compute. exact I.
Defined.

Lemma pending_move_asks_for_an_open_selection_witness :
  ∃ l sels,
    Action._getResolvedSelections (Examples.resources (Some true)) ∅ = (Some l, sels) ∧
    length l = 2%nat ∧
    Forall (λ m, pm_action m = None ∧ ∅ ⊆ pm_args m ∧
                 ∃ r, Action.deref sels (pm_selection m) = Some r ∧
                      pm_args m !! key (r_name r) = None) l.
Proof.
  eexists _, _. split; [vm_compute; reflexivity|]. split; [reflexivity|].
  apply (pending_move_asks_for_an_open_selection (Examples.resources (Some true)) ∅).
  vm_compute. reflexivity.
Defined.

Lemma resolution_writes_only_prompts_and_candidates_witness :
  (Action._getResolvedSelections Examples.at_most_two {["a" := Examples.num 1]}).2 !! 0%nat =
    selections Examples.at_most_two !! 0%nat.
Proof.
  refine (proj2 (resolution_writes_only_prompts_and_candidates
                   Examples.at_most_two {["a" := Examples.num 1]}) 0%nat _ eq_refl _).
  vm_compute. by eexists.
Defined.

Lemma expanded_selection_is_not_asked_witness :
  ∃ m l sels',
    Action._getResolvedSelections (Examples.resources (Some true)) ∅ = (Some (m :: l), sels') ∧
    Forall (λ m, ∅ ⊆ pm_args m ∧ is_Some (pm_args m !! "r")) (m :: l).
Proof.
  edestruct (expanded_selection_is_not_asked (Examples.resources (Some true)) ∅)
    as (m & l & sels' & Hres & Hall).
  - vm_compute. reflexivity.
  - reflexivity.
  - discriminate.
  - reflexivity.
  - reflexivity.
  - vm_compute. split; [discriminate|]. split; [discriminate|exact I].
  - vm_compute. intros [H _]. discriminate H.
  - exists m, l, sels'. split; [exact Hres|exact Hall].
Defined.

Lemma choice_is_asked_as_it_stands_witness :
  ∃ m sels' sel,
    Action._getResolvedSelections Examples.at_most_two ∅ = (Some [m], sels') ∧
    Action.deref sels' (pm_selection m) = Some sel ∧
    r_choices sel = Some (ChoiceList [VNum 1; VNum 2; VNum 3]).
Proof.
  eexists _, _, _. split; [vm_compute; reflexivity|]. split.
  - eapply (choice_is_asked_as_it_stands Examples.at_most_two ∅).
    + vm_compute. reflexivity.
    + discriminate.
    + vm_compute. reflexivity.
    + left.
    + reflexivity.
  - reflexivity.
Defined.

Lemma resolution_nests_once_per_open_selection_witness :
  (Action.getResolved 7 None "p" (selections (Examples.resources None)) ∅).1 ≠ Exhausted ∧
  Action.getResolved 7 None "p" (selections (Examples.resources None)) ∅ =
    Action.getResolved (S (missing (keys (selections (Examples.resources None))) ∅)) None "p"
      (selections (Examples.resources None)) ∅.
Proof.
  apply resolution_nests_once_per_open_selection. vm_compute. lia.
Defined.


Lemma dispatch_without_choice_of_action_witness :
  Game.getResolvedSelections Examples.declared
    {| Game.step := Some "turn"; Game.aa_prompt := Some "your move";
       Game.aa_skipIfOnlyOne := true; Game.aa_expand := false;
       Game.actions := ["sell"] |} None None = None ∧
  ∃ moves,
    Game.getResolvedSelections Examples.declared
      {| Game.step := Some "turn"; Game.aa_prompt := Some "your move";
         Game.aa_skipIfOnlyOne := true; Game.aa_expand := false;
         Game.actions := ["sell"; "count"] |} None None =
    Some {| Game.r_step := Some "turn"; Game.r_prompt_of := Some "your move";
            Game.r_moves := moves |} ∧
    length moves = 1%nat.
Proof.
  split.
  - apply (proj1 (dispatch_without_choice_of_action Examples.declared _ None)).
    constructor; [vm_compute; reflexivity|constructor].
  - eexists. split.
    + refine (proj2 (dispatch_without_choice_of_action Examples.declared
                       {| Game.step := Some "turn"; Game.aa_prompt := Some "your move";
                          Game.aa_skipIfOnlyOne := true; Game.aa_expand := false;
                          Game.actions := ["sell"; "count"] |} None)
                ["sell"] "count" [] _ _ eq_refl _ _ eq_refl).
      * constructor; [vm_compute; reflexivity|constructor].
      * vm_compute. reflexivity.
    + reflexivity.
Defined.

(** ** Game: the properties at work *)

Lemma no_pending_moves_without_an_action_step_witness :
  Game.getResolvedSelectionsFor Examples.declared true Game.new true None (λ _, true)
    (Some "take") None = Thrown "cannot call god mode actions until started" ∧
  Game.getResolvedSelectionsFor Examples.declared false Game.started false (Some Examples.turn_step)
    (λ _, true) (Some "take") None = Returned None.
Proof.
  split.
  - apply (proj1 (no_pending_moves_without_an_action_step Examples.declared true Game.new
                    true None (λ _, true) (Some "take") None)); [reflexivity|discriminate].
  - apply (proj2 (no_pending_moves_without_an_action_step Examples.declared false Game.started
                    false (Some Examples.turn_step) (λ _, true) (Some "take") None)).
    + discriminate.
    + right. split; reflexivity.
Defined.

Lemma allowed_actions_are_the_possible_actions_of_the_step_witness :
  ∃ allowed,
    Game.allowedActions false Game.started true (Some Examples.turn_step)
      (λ n, bool_decide (n ≠ "sell")) = Returned allowed ∧
    "count" ∈ Game.actions allowed ∧ "sell" ∉ Game.actions allowed.
Proof.
  eexists. split; [reflexivity|]. split.
  - apply (allowed_actions_are_the_possible_actions_of_the_step false Game.started true
             (Some Examples.turn_step) (λ n, bool_decide (n ≠ "sell")) _ "count" eq_refl eq_refl).
    split; [reflexivity|]. split; [reflexivity|].
    eexists _, _. split; [reflexivity|]. split; [reflexivity|]. right. left.
  - intros Hin.
    apply (allowed_actions_are_the_possible_actions_of_the_step false Game.started true
             (Some Examples.turn_step) (λ n, bool_decide (n ≠ "sell")) _ "sell" eq_refl eq_refl)
      in Hin as (_ & Hp & _).
    discriminate Hp.
Defined.

Lemma incomplete_move_leaves_the_game_alone_witness :
  ∃ e, e ≠ "" ∧
    Game.processMove 1%nat (on_board (Action._process Examples.counters ∅)) Examples.fresh =
      (Returned (Some e), Examples.fresh).
Proof.
  apply incomplete_move_leaves_the_game_alone.
  - unfold complete. apply (bool_decide_unpack _). vm_compute. exact I.
  - eexists. vm_compute. reflexivity.
Defined.

Lemma empty_error_message_reads_as_success_witness :
  Game.processMove 1%nat (on_board (Action._process Examples.counters_mute Examples.two)) Examples.fresh =
    (Returned None, {| Game.ctx_player := None; Game.rest := [Examples.two] |}).
Proof.
  refine (empty_error_message_reads_as_success 1%nat Examples.counters_mute Examples.two Examples.fresh
            [Examples.spy] Examples.mute [Examples.mark] _ _ eq_refl _ eq_refl).
  - constructor; [right; left; vm_compute; by eexists|constructor].
  - constructor; [vm_compute; reflexivity|constructor].
  - intros move st Hin. apply list_elem_of_singleton in Hin as ->. reflexivity.
Defined.

(** ** Further properties of the players in turn *)

Section CollectionTheorems.

Import PlayerCollection.

Context {P : Type} (position : P → Z).
Implicit Types (this : t (P := P)).

(** X17. When no two players share a position and the current position is
    that of the player at index [i], [next()] makes the player that follows
    in the array the current one and returns that player, the first player
    following the last; called once per player, it leaves the collection as
    it found it. *)
Theorem next_goes_round_the_table this i p :
  NoDup (position <$> players this) → players this !! i = Some p →
  currentPosition this = Some (position p) →
  (∃ q, players this !! ((i + 1) mod length (players this))%nat = Some q ∧
        next position this =
          (Returned (Some q),
           {| players := players this; currentPosition := Some (position q) |})) ∧
  Nat.iter (length (players this)) (λ s, (next position s).2) this = this.
Proof.
  intros Hnd Hi Hcur. split; [by apply (next_spec position this i p)|].
  destruct (turns_spec position this i p (length (players this)) Hnd Hi Hcur)
    as (q & Hq & Hturns).
  rewrite Hturns.
  assert (Hlt : (i < length (players this))%nat) by (by eapply lookup_lt_Some).
  replace ((i + length (players this)) mod length (players this))%nat with i in Hq.
  - rewrite Hi in Hq. injection Hq as <-. destruct this; simpl in *. by subst.
  - rewrite <- (Nat.mul_1_l (length (players this))) at 1.
    rewrite Nat.Div0.mod_add. by rewrite Nat.mod_small.
Qed.

(** X18. The turn order. For a position that no player has, [turnOrderOf]
    and [after] throw "No such player". When no two players share a
    position, the turn order of the player at index [i] is [i + 1], and the
    player after them is the one at the next index, the first player coming
    after the last. *)
Theorem turn_order_wraps_around this :
  (∀ player, (∀ p, p ∈ players this → position p ≠ player) →
     turnOrderOf position player this = Thrown "No such player" ∧
     after position player this = Thrown "No such player") ∧
  (NoDup (position <$> players this) →
   ∀ i p, players this !! i = Some p →
     turnOrderOf position (position p) this = Returned (i + 1)%nat ∧
     ∃ q, players this !! ((i + 1) mod length (players this))%nat = Some q ∧
          after position (position p) this = Returned (Some q)).
Proof.
  split.
  - intros player Habs. unfold after, turnOrderOf. by rewrite find_absent.
  - intros Hnd i p Hi. split; [by apply (turnOrderOf_spec position this i p)|].
    destruct (seat_exists _ i p 1 Hi) as [q Hq]. exists q. split; [done|].
    by rewrite (after_spec position this i p), Hq.
Qed.

(** X19. [notCurrent()] is everyone when no position is current; when no
    two players share a position and the current position is that of the
    player at index [i], it is all the players but that one, in the order
    of the array. *)
Theorem notCurrent_is_everyone_else this :
  (currentPosition this = None → notCurrent position this = players this) ∧
  (NoDup (position <$> players this) →
   ∀ i p, players this !! i = Some p → currentPosition this = Some (position p) →
     notCurrent position this = delete i (players this)).
Proof.
  unfold notCurrent. split.
  - intros ->. induction (players this) as [|x l IH]; [done|].
    rewrite filter_cons_True by done. by rewrite IH.
  - intros Hnd i p Hi ->. by apply filter_others.
Qed.

End CollectionTheorems.

Lemma next_goes_round_the_table_witness :
  PlayerCollection.next id Examples.table =
    (Returned (Some 1),
     {| PlayerCollection.players := [1; 2; 3]; PlayerCollection.currentPosition := Some 1 |}) ∧
  Nat.iter 3 (λ s, (PlayerCollection.next id s).2) Examples.table = Examples.table.
Proof.
  destruct (next_goes_round_the_table id Examples.table 2 3) as [(q & Hq & Hnext) Hround].
  - apply (bool_decide_unpack _). vm_compute. exact I.
  - reflexivity.
  - reflexivity.
  - split; [|exact Hround]. injection Hq as <-. exact Hnext.
Defined.

Lemma turn_order_wraps_around_witness :
  PlayerCollection.turnOrderOf id 4 Examples.table = Thrown "No such player" ∧
  PlayerCollection.turnOrderOf id 3 Examples.table = Returned 3%nat.
Proof.
  split.
  - apply (proj1 (turn_order_wraps_around id Examples.table) 4).
    intros p Hin. unfold Examples.table in Hin. simpl in Hin.
    rewrite !elem_of_cons, elem_of_nil in Hin.
    destruct Hin as [->|[->|[->|[]]]]; discriminate.
  - apply (proj2 (turn_order_wraps_around id Examples.table)) with (i := 2%nat) (p := 3);
      [|reflexivity].
    apply (bool_decide_unpack _). vm_compute. exact I.
Defined.

Lemma notCurrent_is_everyone_else_witness :
  PlayerCollection.notCurrent id Examples.table = [1; 2].
Proof.
  apply (proj2 (notCurrent_is_everyone_else id Examples.table)) with (i := 2%nat) (p := 3);
    [|reflexivity..].
  apply (bool_decide_unpack _). vm_compute. exact I.
Defined.

(** ** Selection: validation against enumeration *)

Section Agreement.
Import Selection.

Lemma validate_number s args v :
  type s = number → r_skipIf (resolve s args) ≠ Some true →
  validate s (Some (Single v)) args = Returned None ↔
  is_number v = true ∧ within (resolve s args) v.
Proof.
  intros Hty Hskip. unfold validate. cbv zeta. rewrite decide_False by done.
  simpl r_type. rewrite Hty. unfold validate_scalar, within. simpl r_type. rewrite Hty. simpl.
  destruct (is_number v); simpl; [|split; [done|by intros [? _]]].
  destruct (eval args (min s)) as [lo|], (eval args (max s)) as [hi|]; simpl.
  - destruct (below v lo) eqn:Hlo, (above v hi) eqn:Hhi; simpl; split; try done;
      try (intros (_ & H1 & H2); specialize (H1 _ eq_refl); specialize (H2 _ eq_refl); congruence).
    intros _. split; [done|]. split; intros ? [= <-]; done.
  - destruct (below v lo) eqn:Hlo; simpl; split; try done;
      try (intros (_ & H1 & H2); specialize (H1 _ eq_refl); congruence).
    intros _. split; [done|]. split; intros ? [=]. by subst.
  - destruct (above v hi) eqn:Hhi; simpl; split; try done;
      try (intros (_ & H1 & H2); specialize (H2 _ eq_refl); congruence).
    intros _. split; [done|]. split; intros ? [=]. by subst.
  - split; [|done]. intros _. split; [done|]. split; intros ? [=].
Qed.

Lemma options_range r lo hi o :
  r_type r = number → r_min r = lo → r_max r = Some hi → isUnbounded r = false →
  o ∈ options r ↔ ∃ k, o = Single (VNum k) ∧ default 1 lo ≤ k ≤ hi.
Proof.
  intros Hty Hmin Hmax Hub. unfold options. rewrite Hub, Hty, Hmax, Hmin. simpl.
  rewrite list_elem_of_fmap. split.
  - intros (k & -> & Hk). exists k. split; [done|].
    apply range_spec. by apply list_elem_of_fmap_2.
  - intros (k & -> & Hk). exists k. split; [done|].
    apply range_spec in Hk. by apply list_elem_of_fmap_1 in Hk as (? & [= <-] & ?).
Qed.

(** X21. For a selection of which the values are listed one by one (a
    choice among choices, a single element among candidates, or a number
    between a given minimum and a maximum at most 100 above it), built as
    the constructor builds it and not skipped, [validate] accepts the values
    that [options()] lists and, of a number selection, also the numbers
    that are not integers and are neither below [min] nor above [max],
    [NaN] among them: such numbers are accepted though never listed. It
    accepts nothing else. *)
Theorem validation_agrees_with_enumeration s args o :
  constructed (resolve s args) → enumerable (resolve s args) →
  r_skipIf (resolve s args) ≠ Some true →
  validate s (Some o) args = Returned None ↔
  o ∈ options (resolve s args) ∨
  (type s = number ∧
   ∃ v, o = Single v ∧ not_integer v = true ∧ within (resolve s args) v).
Proof.
  intros Hc He Hskip. split.
  - destruct (decide (type s = number)) as [Hty|Hty].
    + destruct o as [v|vs].
      * rewrite (validate_number s args v Hty Hskip). intros [Hnum Hin].
        unfold enumerable in He. simpl r_type in He. rewrite Hty in He.
        destruct He as [[lo Hlo] Hub].
        destruct (r_max (resolve s args)) as [hi|] eqn:Hmax.
        2: { unfold isUnbounded in Hub. rewrite decide_True in Hub by done.
             by rewrite Hmax in Hub. }
        destruct v as [| k | | | | | |]; try done;
          try (right; split; [done|]; eexists; split; [done|]; by split).
        left. apply (options_range _ (Some lo) hi); try done.
        exists k. split; [done|]. destruct Hin as [H1 H2].
        specialize (H1 _ Hlo). specialize (H2 _ Hmax). simpl in *. lia.
      * unfold validate. cbv zeta. rewrite decide_False by done.
        simpl r_type. rewrite Hty. unfold validate_scalar. simpl r_type. by rewrite Hty.
    + intros Hv. left. revert Hv.
      destruct Hc as [Hb Hc]. unfold validate. cbv zeta.
      rewrite decide_False by done. rewrite <- (isMulti_resolve s args).
      assert (Hty' : r_type (resolve s args) ≠ number) by done.
      revert Hb Hc He Hty'. generalize (resolve s args). clear Hskip Hty. intros r Hb Hc He Hty.
      unfold enumerable in He. unfold options, isUnbounded, validate_scalar.
      destruct (r_type r) eqn:Hty'; try done; simpl.
      * destruct He as [[bs Hbs] Hm]. rewrite Hbs, Hm. simpl.
        destruct o as [v|vs]; simpl; [|by destruct (r_choices r)].
        unfold includes. case_bool_decide; [|by destruct (r_choices r)].
        intros _. by apply list_elem_of_fmap_2.
      * destruct He as [cs Hcs]. rewrite Hcs, (Hc eq_refl).
        destruct (r_boardChoices r) as [bs|] eqn:Hbs;
          [by specialize (Hb (mk_is_Some _ _ eq_refl))|].
        simpl. destruct o as [v|vs]; simpl; [|done].
        unfold includes. case_bool_decide; [|done]. intros _. by apply list_elem_of_fmap_2.
  - intros [Hin|(Hty & v & -> & Hni & Hw)]; [by apply option_accepted|].
    apply validate_number; [done..|]. split; [by destruct v|done].
Qed.

(** X22. The default minimum of a number selection. When [min] is unset
    [validate] accepts every number that is not above [max]: zero and the
    negative integers, the numbers that are not integers, [NaN] and
    [-Infinity] included; whereas [options()] lists the integers from 1 to
    [max]: the default of 1 that [options()] and [isPossible()] apply is
    not applied by [validate]. *)
Theorem validate_has_no_default_minimum s args hi :
  type s = number → r_skipIf (resolve s args) ≠ Some true →
  r_min (resolve s args) = None → r_max (resolve s args) = Some hi →
  (∀ v, validate s (Some (Single v)) args = Returned None ↔
        is_number v = true ∧ above v hi = false) ∧
  (hi ≤ 101 →
   ∀ o, o ∈ options (resolve s args) ↔ ∃ k, o = Single (VNum k) ∧ 1 ≤ k ≤ hi).
Proof.
  intros Hty Hskip Hmin Hmax. split.
  - intros v. rewrite (validate_number s args v Hty Hskip). unfold within.
    rewrite Hmin, Hmax. split.
    + intros (? & _ & H). split; [done|]. by apply H.
    + intros [? ?]. split; [done|]. split; [done|]. by intros ? [= <-].
  - intros Hhi o. apply (options_range _ None hi); try done.
    unfold isUnbounded. simpl r_type. rewrite Hty, Hmax, Hmin. simpl.
    apply Z.ltb_ge. lia.
Qed.

End Agreement.

Lemma validation_agrees_with_enumeration_witness :
  Selection.validate Examples.which_resource (Some (Examples.str "oil")) ∅ = Returned None ∧
  Selection.validate Examples.from_nought_to_three (Some (Single VNaN)) ∅ = Returned None ∧
  Selection.validate Examples.from_nought_to_three (Some (Single (VFraction 2 1))) ∅ =
    Returned None.
Proof.
  split; [|split].
  - apply validation_agrees_with_enumeration.
    + split; [intros [? H]; discriminate H|reflexivity].
    + vm_compute. by eexists.
    + discriminate.
    + left. vm_compute. left.
  - apply validation_agrees_with_enumeration.
    + split; [intros [? H]; discriminate H|intros H; discriminate H].
    + vm_compute. split; [by eexists|reflexivity].
    + discriminate.
    + right. split; [reflexivity|]. exists VNaN. split; [reflexivity|].
      split; [reflexivity|]. split; intros m _; reflexivity.
  - apply validation_agrees_with_enumeration.
    + split; [intros [? H]; discriminate H|intros H; discriminate H].
    + vm_compute. split; [by eexists|reflexivity].
    + discriminate.
    + right. split; [reflexivity|]. exists (VFraction 2 1). split; [reflexivity|].
      split; [reflexivity|]. split; intros m [= <-]; reflexivity.
Defined.

Lemma validate_has_no_default_minimum_witness :
  Selection.validate Examples.how_many (Some (Examples.num 0)) ∅ = Returned None ∧
  Examples.num 0 ∉ Selection.options (Selection.resolve Examples.how_many ∅).
Proof.
  destruct (validate_has_no_default_minimum Examples.how_many ∅ 3) as [Hv Ho];
    [reflexivity|discriminate|reflexivity|reflexivity|].
  split.
  - apply Hv. split; reflexivity.
  - intros Hin. apply Ho in Hin as (k & [= <-] & Hk); lia.
Defined.
